(** * pbrt-v2: irradiance cache, dipole subsurface cache and 1D distributions

    Shallow embedding of
      - core/montecarlo.h             (Distribution1D),
      - integrators/irradiancecache.cpp (IrradProcess, interpolateE, Preprocess),
      - integrators/dipolesubsurface.cpp (SubsurfaceOctreeNode, PoissonPointTask,
        DipoleSubsurfaceIntegrator::Preprocess).

    Numbers.  The C++ type [float] is IEEE-754 binary32.  It is embedded as
    [spec_float] with the operations of the Standard Library's [SpecFloat]
    at precision 24 and maximal exponent 128 (round to nearest, ties to
    even), so that every definition evaluates, NaNs and infinities included.
    [int] and [u_int] values stay far from their bounds in everything below
    and are embedded as [Z] and [nat].

    Pointers.  A possibly-null pointer is an [option]; the eight-slot arrays
    of a cluster node are lists of options.  Reads outside an array are
    [None] in the [option] monad.

    The file is organised as: Part I, the embedding; Part II, the proofs. *)

From Stdlib Require Import ZArith List Bool Lia Permutation PeanoNat.
From Stdlib Require Import Floats.SpecFloat.
Import ListNotations.

Set Implicit Arguments.
Set Warnings "-register-all".

(* ===================================================================== *)
(** * Part I.  The embedding                                             *)
(* ===================================================================== *)

(** ** binary32 arithmetic *)

Module F32.

Definition prec : Z := 24.
Definition emax : Z := 128.

Definition float : Type := spec_float.

Definition add : float -> float -> float := SFadd prec emax.
Definition sub : float -> float -> float := SFsub prec emax.
Definition mul : float -> float -> float := SFmul prec emax.
Definition div : float -> float -> float := SFdiv prec emax.
Definition sqrtf : float -> float := SFsqrt prec emax.
Definition opp : float -> float := SFopp.

Definition ltb : float -> float -> bool := SFltb.
Definition leb : float -> float -> bool := SFleb.
Definition eqb : float -> float -> bool := SFeqb.
(** [a > b] and [a >= b] of C++ are [b < a] and [b <= a]. *)
Definition gtb (a b : float) : bool := ltb b a.
Definition geb (a b : float) : bool := leb b a.

(** Conversion of an [int] to [float]. *)
Definition of_int (z : Z) : float := binary_normalize prec emax z 0 false.

Definition zero : float := S754_zero false.
Definition one : float := Eval vm_compute in of_int 1.
Definition infinity : float := S754_infinity false.
Definition nan : float := S754_nan.

(** A decimal literal [n/d] (for instance [.9f] is [ratio 9 10]): the
    correctly rounded quotient of two exactly represented integers. *)
Definition ratio (n d : Z) : float := div (of_int n) (of_int d).

(** [std::max(a, b)] is [(a < b) ? b : a]; [std::min(a, b)] is
    [(b < a) ? b : a]. *)
Definition max (a b : float) : float := if ltb a b then b else a.
Definition min (a b : float) : float := if ltb b a then b else a.

Definition is_nan (x : float) : bool :=
  match x with S754_nan => true | _ => false end.

Definition is_finite (x : float) : bool :=
  match x with S754_zero _ | S754_finite _ _ _ => true | _ => false end.

(** A [spec_float] is the image of a binary32 datum when its mantissa
    and exponent are in canonical form. *)
Definition valid (x : float) : bool := valid_binary prec emax x.

(** Sign bit clear, or NaN: what sums, products and quotients of
    non-negative numbers are. *)
Definition nonneg_or_nan (x : float) : bool :=
  match x with
  | S754_zero s | S754_infinity s | S754_finite s _ _ => negb s
  | S754_nan => true
  end.

End F32.

Abbreviation float := F32.float.

Declare Scope f32_scope.
Delimit Scope f32_scope with f32.
Infix "+" := F32.add : f32_scope.
Infix "-" := F32.sub : f32_scope.
Infix "*" := F32.mul : f32_scope.
Infix "/" := F32.div : f32_scope.
Infix "<?" := F32.ltb : f32_scope.
Infix "<=?" := F32.leb : f32_scope.
Infix "=?" := F32.eqb : f32_scope.

(** ** The option monad for array reads *)

Definition obind {A B : Type} (o : option A) (k : A -> option B) : option B :=
  match o with Some a => k a | None => None end.

Notation "x <- o ;; k" := (obind o (fun x => k))
  (at level 61, o at next level, right associativity).

(** ** core/montecarlo.h *)

Module Montecarlo.

Record Distribution1D : Type := mkDistribution1D {
  func : list float;
  cdf : list float;
  funcInt : float;
  count : Z
}.

(** The first loop of the constructor: [cdf[i] = cdf[i-1] + f[i-1] / n],
    with [prev] the last value written. *)
Fixpoint step_integral (f : list float) (n : Z) (prev : float) : list float :=
  match f with
  | [] => []
  | fi :: f' =>
      let c := (prev + fi / F32.of_int n)%f32 in
      c :: step_integral f' n c
  end.

(** [Distribution1D::Distribution1D(const float *f, int n)], with the [n]
    floats at [f] as a list. *)
Definition Distribution1D_new (f : list float) : Distribution1D :=
  let n := Z.of_nat (length f) in
  let integral := step_integral f n F32.zero in
  let fInt := last integral F32.zero in
  {| func := f;
     cdf := F32.zero :: map (fun c => (c / fInt)%f32) integral;
     funcInt := fInt;
     count := n |}.

(** [std::lower_bound(first, first + len, u)]: the halving search of the
    C++ library, comparing with [<]; the result is an index. *)
Fixpoint lower_bound_loop (fuel : nat) (a : list float) (first len : nat)
    (u : float) : nat :=
  match fuel with
  | O => first
  | S fuel' =>
      match len with
      | O => first
      | _ =>
          let half := Nat.div2 len in
          let middle := (first + half)%nat in
          if (nth middle a F32.nan <? u)%f32
          then lower_bound_loop fuel' a (middle + 1) (len - half - 1) u
          else lower_bound_loop fuel' a first half u
      end
  end.

Definition lower_bound (a : list float) (len : nat) (u : float) : nat :=
  lower_bound_loop len a 0 len u.

(** [max(0, int(ptr - cdf - 1))] *)
Definition find_offset (d : Distribution1D) (u : float) : Z :=
  let ptr := lower_bound (cdf d) (Z.to_nat (count d + 1)) u in
  Z.max 0 (Z.of_nat ptr - 1).

Definition read (a : list float) (i : Z) : option float :=
  if (i <? 0)%Z then None else nth_error a (Z.to_nat i).

(** [SampleContinuous(u, &pdf)]: the returned value and the value
    written through [pdf]. *)
Definition SampleContinuous (d : Distribution1D) (u : float)
    : option (float * float) :=
  let offset := find_offset d u in
  c0 <- read (cdf d) offset ;;
  c1 <- read (cdf d) (offset + 1) ;;
  fo <- read (func d) offset ;;
  let du := ((u - c0) / (c1 - c0))%f32 in
  let pdf := (fo / funcInt d)%f32 in
  Some (((F32.of_int offset + du) / F32.of_int (count d))%f32, pdf).

(** [SampleDiscrete(u, &pdf)]: the returned bin and the value written
    through [pdf]. *)
Definition SampleDiscrete (d : Distribution1D) (u : float)
    : option (Z * float) :=
  let offset := find_offset d u in
  fo <- read (func d) offset ;;
  let pdf := (fo / funcInt d)%f32 in
  Some (offset, pdf).

End Montecarlo.

(** ** core/geometry.h *)

Module Geometry.

(** Modelled from the spec: [Point], [Vector] and [Normal] of
    core/geometry.h (not among the sources) are triples of floats. *)
Record Vector : Type := mkVector { vx : float; vy : float; vz : float }.
Record Point : Type := mkPoint { px : float; py : float; pz : float }.
Record Normal : Type := mkNormal { nx : float; ny : float; nz : float }.

(** Modelled from the spec: [BBox] of core/geometry.h, two corners. *)
Record BBox : Type := mkBBox { pMin : Point; pMax : Point }.

(** [Point()] and [Vector(0,0,0)] *)
Definition Point0 : Point := mkPoint F32.zero F32.zero F32.zero.
Definition Vector0 : Vector := mkVector F32.zero F32.zero F32.zero.

(** [p1 - p2] *)
Definition Point_sub (p1 p2 : Point) : Vector :=
  mkVector (px p1 - px p2)%f32 (py p1 - py p2)%f32 (pz p1 - pz p2)%f32.

(** [p1 + p2] and [p += q] *)
Definition Point_add (p1 p2 : Point) : Point :=
  mkPoint (px p1 + px p2)%f32 (py p1 + py p2)%f32 (pz p1 + pz p2)%f32.

(** [f * p] *)
Definition Point_scale (f : float) (p : Point) : Point :=
  mkPoint (f * px p)%f32 (f * py p)%f32 (f * pz p)%f32.

(** [p /= f]: multiplication by the reciprocal [1.f / f]. *)
Definition Point_div (p : Point) (f : float) : Point :=
  let inv := (F32.one / f)%f32 in
  mkPoint (px p * inv)%f32 (py p * inv)%f32 (pz p * inv)%f32.

(** [v += w] and [f * v] for the direction accumulators. *)
Definition Vector_add (v w : Vector) : Vector :=
  mkVector (vx v + vx w)%f32 (vy v + vy w)%f32 (vz v + vz w)%f32.
Definition Vector_scale (f : float) (v : Vector) : Vector :=
  mkVector (f * vx v)%f32 (f * vy v)%f32 (f * vz v)%f32.

Definition LengthSquared (v : Vector) : float :=
  (vx v * vx v + vy v * vy v + vz v * vz v)%f32.
Definition Length (v : Vector) : float := F32.sqrtf (LengthSquared v).

Definition Distance (p1 p2 : Point) : float := Length (Point_sub p1 p2).
Definition DistanceSquared (p1 p2 : Point) : float :=
  LengthSquared (Point_sub p1 p2).

(** [Dot(n1, n2)] on normals *)
Definition Dot (n1 n2 : Normal) : float :=
  (nx n1 * nx n2 + ny n1 * ny n2 + nz n1 * nz n2)%f32.

(** [BBox()]: the empty box, from plus infinity to minus infinity. *)
Definition BBox0 : BBox :=
  mkBBox (mkPoint F32.infinity F32.infinity F32.infinity)
         (mkPoint (F32.opp F32.infinity) (F32.opp F32.infinity)
                  (F32.opp F32.infinity)).

(** [b.Inside(pt)] *)
Definition Inside (b : BBox) (pt : Point) : bool :=
  F32.geb (px pt) (px (pMin b)) && F32.leb (px pt) (px (pMax b)) &&
  F32.geb (py pt) (py (pMin b)) && F32.leb (py pt) (py (pMax b)) &&
  F32.geb (pz pt) (pz (pMin b)) && F32.leb (pz pt) (pz (pMax b)).

(** [Union(b, p)] *)
Definition Union (b : BBox) (p : Point) : BBox :=
  mkBBox (mkPoint (F32.min (px (pMin b)) (px p))
                  (F32.min (py (pMin b)) (py p))
                  (F32.min (pz (pMin b)) (pz p)))
         (mkPoint (F32.max (px (pMax b)) (px p))
                  (F32.max (py (pMax b)) (py p))
                  (F32.max (pz (pMax b)) (pz p))).

(** [.5f * b.pMin + .5f * b.pMax] *)
Definition midpoint (b : BBox) : Point :=
  let half := F32.ratio 1 2 in
  Point_add (Point_scale half (pMin b)) (Point_scale half (pMax b)).

(** Modelled from the spec: [octreeChildBound] of core/octree.h (not
    among the sources), the sub-box of octant [child], whose bits 4, 2
    and 1 select the upper half in x, y and z. *)
Definition octreeChildBound (child : nat) (nodeBound : BBox) (pMid : Point)
    : BBox :=
  let hi4 := Nat.testbit child 2 in
  let hi2 := Nat.testbit child 1 in
  let hi1 := Nat.testbit child 0 in
  mkBBox
    (mkPoint (if hi4 then px pMid else px (pMin nodeBound))
             (if hi2 then py pMid else py (pMin nodeBound))
             (if hi1 then pz pMid else pz (pMin nodeBound)))
    (mkPoint (if hi4 then px (pMax nodeBound) else px pMid)
             (if hi2 then py (pMax nodeBound) else py pMid)
             (if hi1 then pz (pMax nodeBound) else pz pMid)).

End Geometry.

Import Geometry.

(** ** core/spectrum.h, as an interface *)

(** Modelled from the spec: the [Spectrum] class of core/spectrum.h (not
    among the sources) enters only through these operations:
    [Spectrum(v)], [s1 + s2], [s1 * s2], [s * a] (also written [a * s]),
    [s / a] and the luminance [s.y()]. *)
Class SpectrumOps (S : Type) : Type := {
  sp_const : float -> S;
  sp_add : S -> S -> S;
  sp_mul : S -> S -> S;
  sp_scale : S -> float -> S;
  sp_div : S -> float -> S;
  sp_y : S -> float
}.

(** Modelled from the spec: [RGBSpectrum], the renderer's default
    [Spectrum]: three float coefficients, operated on coefficient-wise. *)
Record RGB : Type := mkRGB { cr : float; cg : float; cb : float }.

Module RGBSpectrum.
Definition map1 (f : float -> float) (s : RGB) : RGB :=
  mkRGB (f (cr s)) (f (cg s)) (f (cb s)).
Definition map2 (f : float -> float -> float) (s t : RGB) : RGB :=
  mkRGB (f (cr s) (cr t)) (f (cg s) (cg t)) (f (cb s) (cb t)).
(** [y()]: the luminance weights .212671f, .715160f, .072169f. *)
Definition y (s : RGB) : float :=
  (F32.ratio 212671 1000000 * cr s + F32.ratio 715160 1000000 * cg s
     + F32.ratio 72169 1000000 * cb s)%f32.
End RGBSpectrum.

#[export] Instance RGB_ops : SpectrumOps RGB := {|
  sp_const := fun v => mkRGB v v v;
  sp_add := RGBSpectrum.map2 F32.add;
  sp_mul := RGBSpectrum.map2 F32.mul;
  sp_scale := fun s a => RGBSpectrum.map1 (fun c => (c * a)%f32) s;
  sp_div := fun s a => RGBSpectrum.map1 (fun c => (c / a)%f32) s;
  sp_y := RGBSpectrum.y
|}.

(** ** core/octree.h, as an interface *)

(** Modelled from the spec: the spatial octree of core/octree.h (not
    among the sources).  [Add(payload, region)] stores a payload;
    [Lookup(point, visitor)] calls the visitor on the payloads of the
    nodes whose region contains the point, [octree_visit] being that
    sequence of payloads, and stops when the visitor answers [false]. *)
Class OctreeOps (Oct : Type -> Type) : Type := {
  octree_new : forall A : Type, BBox -> Oct A;
  octree_Add : forall A : Type, Oct A -> A -> BBox -> Oct A;
  octree_visit : forall A : Type, Oct A -> Point -> list A
}.

Arguments octree_new {Oct _ A} _.
Arguments octree_Add {Oct _ A} _ _ _.
Arguments octree_visit {Oct _ A} _ _.

(** The visitor loop of [Lookup]: [proc] is the visitor's state and
    [call] its [operator()]. *)
Fixpoint visit {A P : Type} (call : P -> A -> P * bool) (items : list A)
    (proc : P) : P :=
  match items with
  | [] => proc
  | x :: rest =>
      let '(proc', continue) := call proc x in
      if continue then visit call rest proc' else proc'
  end.

Definition Lookup {Oct : Type -> Type} {OO : OctreeOps Oct} {A P : Type}
    (oct : Oct A) (p : Point) (call : P -> A -> P * bool) (proc : P) : P :=
  visit call (octree_visit oct p) proc.

(** Modelled from the spec: an octree as the list of its payloads with
    their regions, a lookup visiting the payloads, oldest first, whose
    region contains the point. *)
Record ListOctree (A : Type) : Type :=
  mkListOctree { lo_bound : BBox; lo_items : list (A * BBox) }.

#[export] Instance ListOctree_ops : OctreeOps ListOctree := {|
  octree_new := fun A b => mkListOctree b (@nil (A * BBox));
  octree_Add := fun A o x r => mkListOctree (lo_bound o) (lo_items o ++ [(x, r)]);
  octree_visit := fun A o p =>
    map fst (filter (fun xr => Inside (snd xr) p) (lo_items o))
|}.

(** ** integrators/irradiancecache.cpp *)

Module IrradianceCache.
Section WithSpectrum.

Context {S : Type} {SO : SpectrumOps S}.
Context {Oct : Type -> Type} {OO : OctreeOps Oct}.

Record IrradianceSample : Type := mkIrradianceSample {
  sE : S;
  sn : Normal;
  sp : Point;
  swAvg : Vector;
  smaxDist : float
}.

Record IrradProcess : Type := mkIrradProcess {
  qp : Point;
  qn : Normal;
  qminWeight : float;
  qcosMaxSampleAngleDifference : float;
  nFound : Z;
  sumWt : float;
  qE : S;
  qwAvg : Vector
}.

(** [IrradProcess::IrradProcess(P, N, mw, cmsad)] *)
Definition IrradProcess_new (P : Point) (N : Normal) (mw cmsad : float)
    : IrradProcess :=
  {| qp := P; qn := N; qminWeight := mw;
     qcosMaxSampleAngleDifference := cmsad;
     nFound := 0; sumWt := F32.zero; qE := sp_const F32.zero;
     qwAvg := Vector0 |}.

(** The three error terms of [IrradProcess::operator()]. *)
Definition perr (proc : IrradProcess) (sample : IrradianceSample) : float :=
  (Distance (qp proc) (sp sample) / smaxDist sample)%f32.

Definition nerr (proc : IrradProcess) (sample : IrradianceSample) : float :=
  F32.sqrtf ((F32.one - Dot (qn proc) (sn sample)) /
             (F32.one - qcosMaxSampleAngleDifference proc))%f32.

Definition err (proc : IrradProcess) (sample : IrradianceSample) : float :=
  F32.max (perr proc sample) (nerr proc sample).

(** [bool IrradProcess::operator()(const IrradianceSample *sample)] *)
Definition IrradProcess_call (proc : IrradProcess) (sample : IrradianceSample)
    : IrradProcess * bool :=
  let e := err proc sample in
  if (e <? F32.one)%f32 then
    let wt := (F32.one - e)%f32 in
    ({| qp := qp proc; qn := qn proc; qminWeight := qminWeight proc;
        qcosMaxSampleAngleDifference := qcosMaxSampleAngleDifference proc;
        nFound := nFound proc + 1;
        sumWt := (sumWt proc + wt)%f32;
        qE := sp_add (qE proc) (sp_scale (sE sample) wt);
        qwAvg := Vector_add (qwAvg proc) (Vector_scale wt (swAvg sample)) |},
     true)
  else (proc, true).

Definition Successful (proc : IrradProcess) : bool :=
  F32.geb (sumWt proc) (qminWeight proc).
Definition GetIrradiance (proc : IrradProcess) : S :=
  sp_div (qE proc) (sumWt proc).
Definition GetAverageDirection (proc : IrradProcess) : Vector := qwAvg proc.

Record IrradianceCacheIntegrator : Type := mkIrradianceCacheIntegrator {
  minSamplePixelSpacing : float;
  maxSamplePixelSpacing : float;
  minWeight : float;
  cosMaxSampleAngleDifference : float;
  nSamples : Z;
  maxSpecularDepth : Z;
  maxIndirectDepth : Z;
  octree : option (Oct IrradianceSample)
}.

(** [interpolateE(scene, p, n, &E, &wi)]: [None] is the result [false];
    [Some (E, wi)] is the result [true] with the two values written. *)
Definition interpolateE (ic : IrradianceCacheIntegrator) (p : Point)
    (n : Normal) : option (S * Vector) :=
  match octree ic with
  | None => None
  | Some oct =>
      let proc :=
        Lookup oct p IrradProcess_call
          (IrradProcess_new p n (minWeight ic)
             (cosMaxSampleAngleDifference ic)) in
      if Successful proc
      then Some (GetIrradiance proc, GetAverageDirection proc)
      else None
  end.

(** What the hemisphere sampling of [indirectLo] obtains from the
    renderer on a cache miss: the irradiance estimate
    [(M_PI / nSamples) * LiSum], the luminance-weighted direction and
    the smallest hit distance. *)
Record Gathered : Type := mkGathered {
  estimateE : S;
  weightedPrimaryDir : Vector;
  minHitDistance : float
}.

(** One call of [indirectLo] that reaches the cache. *)
Record Query : Type := mkQuery {
  query_p : Point;
  query_ng : Normal;
  pixelSpacing : float;
  gathered : Gathered
}.

(** [BBox sampleExtent(p); sampleExtent.Expand(contribExtent)] *)
Definition sampleExtent (p : Point) (delta : float) : BBox :=
  mkBBox (mkPoint (px p - delta) (py p - delta) (pz p - delta))%f32
         (mkPoint (px p + delta) (py p + delta) (pz p + delta))%f32.

(** The cache side of [indirectLo]: on a miss a new sample is added to
    the octree; no other member of the integrator is written ([Li] and
    [indirectLo] are [const], the octree is [mutable]). *)
Definition indirectLo_cache (ic : IrradianceCacheIntegrator) (q : Query)
    : IrradianceCacheIntegrator :=
  match interpolateE ic (query_p q) (query_ng q), octree ic with
  | None, Some oct =>
      let g := gathered q in
      let maxDist := (maxSamplePixelSpacing ic * pixelSpacing q)%f32 in
      let minDist := (minSamplePixelSpacing ic * pixelSpacing q)%f32 in
      let contribExtent :=
        F32.min (F32.max minDist (minHitDistance g / F32.of_int 2)%f32)
                maxDist in
      let sample :=
        {| sE := estimateE g; sn := query_ng q; sp := query_p q;
           swAvg := weightedPrimaryDir g; smaxDist := contribExtent |} in
      {| minSamplePixelSpacing := minSamplePixelSpacing ic;
         maxSamplePixelSpacing := maxSamplePixelSpacing ic;
         minWeight := minWeight ic;
         cosMaxSampleAngleDifference := cosMaxSampleAngleDifference ic;
         nSamples := nSamples ic;
         maxSpecularDepth := maxSpecularDepth ic;
         maxIndirectDepth := maxIndirectDepth ic;
         octree := Some (octree_Add oct sample
                           (sampleExtent (query_p q) contribExtent)) |}
  | _, _ => ic
  end.

Definition set_minWeight (ic : IrradianceCacheIntegrator) (mw : float)
    : IrradianceCacheIntegrator :=
  {| minSamplePixelSpacing := minSamplePixelSpacing ic;
     maxSamplePixelSpacing := maxSamplePixelSpacing ic;
     minWeight := mw;
     cosMaxSampleAngleDifference := cosMaxSampleAngleDifference ic;
     nSamples := nSamples ic;
     maxSpecularDepth := maxSpecularDepth ic;
     maxIndirectDepth := maxIndirectDepth ic;
     octree := octree ic |}.

Definition set_octree (ic : IrradianceCacheIntegrator)
    (o : option (Oct IrradianceSample)) : IrradianceCacheIntegrator :=
  {| minSamplePixelSpacing := minSamplePixelSpacing ic;
     maxSamplePixelSpacing := maxSamplePixelSpacing ic;
     minWeight := minWeight ic;
     cosMaxSampleAngleDifference := cosMaxSampleAngleDifference ic;
     nSamples := nSamples ic;
     maxSpecularDepth := maxSpecularDepth ic;
     maxIndirectDepth := maxIndirectDepth ic;
     octree := o |}.

(** [wb.pMin -= delta; wb.pMax += delta] with
    [delta = .01f * (wb.pMax - wb.pMin)] *)
Definition expanded (wb : BBox) : BBox :=
  let c := F32.ratio 1 100 in
  let d := Point_sub (pMax wb) (pMin wb) in
  mkBBox (mkPoint (px (pMin wb) - c * vx d) (py (pMin wb) - c * vy d)
                  (pz (pMin wb) - c * vz d))%f32
         (mkPoint (px (pMax wb) + c * vx d) (py (pMax wb) + c * vy d)
                  (pz (pMax wb) + c * vz d))%f32.

(** [IrradianceCacheIntegrator::Preprocess]: [worldBound] is
    [scene->WorldBound()] and [queries] the cache queries that the 64
    priming tasks issue through [Li], in the order in which the lock
    serialises them. *)
Definition Preprocess (worldBound : BBox) (queries : list Query)
    (ic : IrradianceCacheIntegrator) : IrradianceCacheIntegrator :=
  let ic1 := set_octree ic (Some (octree_new (expanded worldBound))) in
  let ic2 := set_minWeight ic1 (minWeight ic1 * F32.ratio 3 2)%f32 in
  let ic3 := fold_left indirectLo_cache queries ic2 in
  set_minWeight ic3 (minWeight ic3 / F32.ratio 3 2)%f32.

End WithSpectrum.
End IrradianceCache.

(** ** integrators/dipolesubsurface.cpp *)

(** In-place update of one slot of an array. *)
Fixpoint upd {A : Type} (i : nat) (x : A) (l : list A) : list A :=
  match l, i with
  | [], _ => []
  | _ :: l', O => x :: l'
  | y :: l', Datatypes.S i' => y :: upd i' x l'
  end.

(** Index of the first null pointer of an array of pointers. *)
Fixpoint first_null {A : Type} (l : list (option A)) : option nat :=
  match l with
  | [] => None
  | None :: _ => Some O
  | Some _ :: l' => option_map Datatypes.S (first_null l')
  end.

(** The targets of the non-null pointers of an array, in slot order. *)
Fixpoint non_null {A : Type} (l : list (option A)) : list A :=
  match l with
  | [] => []
  | Some x :: rest => x :: non_null rest
  | None :: rest => non_null rest
  end.

Module DipoleSubsurface.
Section WithSpectrum.

Context {S : Type} {SO : SpectrumOps S}.
Context {Oct : Type -> Type} {OO : OctreeOps Oct}.

Record IrradiancePoint : Type := mkIrradiancePoint {
  ip_p : Point;
  ip_n : Normal;
  ip_E : S;
  ip_area : float;
  ip_rayEpsilon : float
}.

(** *** PoissonCheck *)

Record PoissonCheck : Type := mkPoissonCheck {
  maxDist2 : float;
  failed : bool;
  check_p : Point
}.

Definition PoissonCheck_new (md : float) (pt : Point) : PoissonCheck :=
  {| maxDist2 := (md * md)%f32; failed := false; check_p := pt |}.

Definition PoissonCheck_call (c : PoissonCheck) (ip : IrradiancePoint)
    : PoissonCheck * bool :=
  if (DistanceSquared (ip_p ip) (check_p c) <? maxDist2 c)%f32
  then ({| maxDist2 := maxDist2 c; failed := true; check_p := check_p c |},
        false)
  else (c, true).

(** *** SubsurfaceOctreeNode *)

(** The node: [isLeaf] selects the live member of the union of
    [ips[8]] and [children[8]], so it is the constructor. *)
Inductive SubsurfaceOctreeNode : Type :=
| Leaf (p : Point) (E : S) (sumArea : float)
       (ips : list (option IrradiancePoint))
| Interior (p : Point) (E : S) (sumArea : float)
           (children : list (option SubsurfaceOctreeNode)).

Definition node_p (n : SubsurfaceOctreeNode) : Point :=
  match n with Leaf p _ _ _ | Interior p _ _ _ => p end.
Definition node_E (n : SubsurfaceOctreeNode) : S :=
  match n with Leaf _ E _ _ | Interior _ E _ _ => E end.
Definition node_sumArea (n : SubsurfaceOctreeNode) : float :=
  match n with Leaf _ _ a _ | Interior _ _ a _ => a end.
Definition isLeaf (n : SubsurfaceOctreeNode) : bool :=
  match n with Leaf _ _ _ _ => true | Interior _ _ _ _ => false end.

(** [SubsurfaceOctreeNode()]; [p] and [E] are default-constructed. *)
Definition Node_new : SubsurfaceOctreeNode :=
  Leaf Point0 (sp_const F32.zero) F32.zero (repeat None 8).

(** [(p.x > pMid.x ? 4 : 0) + (p.y > pMid.y ? 2 : 0) + (p.z > pMid.z ? 1 : 0)] *)
Definition octant (p pMid : Point) : nat :=
  ((if F32.gtb (px p) (px pMid) then 4 else 0) +
   (if F32.gtb (py p) (py pMid) then 2 else 0) +
   (if F32.gtb (pz p) (pz pMid) then 1 else 0))%nat.

(** The block "Add IrradiancePoint ip to interior octree node", with
    [insert] the recursive call. *)
Definition insert_child
    (insert : BBox -> SubsurfaceOctreeNode -> IrradiancePoint ->
              option SubsurfaceOctreeNode)
    (nodeBound : BBox) (pMid : Point)
    (children : list (option SubsurfaceOctreeNode)) (ip : IrradiancePoint)
    : option (list (option SubsurfaceOctreeNode)) :=
  let child := octant (ip_p ip) pMid in
  let c := match nth child children None with
           | Some c => c
           | None => Node_new
           end in
  c' <- insert (octreeChildBound child nodeBound pMid) c ip ;;
  Some (upd child (Some c') children).

(** The redistribution loop over [localIps]; dereferencing a null
    [localIps[i]] has no result. *)
Fixpoint redistribute
    (insert : BBox -> SubsurfaceOctreeNode -> IrradiancePoint ->
              option SubsurfaceOctreeNode)
    (nodeBound : BBox) (pMid : Point)
    (localIps : list (option IrradiancePoint))
    (children : list (option SubsurfaceOctreeNode))
    : option (list (option SubsurfaceOctreeNode)) :=
  match localIps with
  | [] => Some children
  | None :: _ => None
  | Some ip :: rest =>
      children' <- insert_child insert nodeBound pMid children ip ;;
      redistribute insert nodeBound pMid rest children'
  end.

(** [Insert(nodeBound, ip, arena)].  The recursion of the source has no
    bound of its own (nine points at one position never separate), so
    the embedding counts the nesting depth down from [fuel]; [None] is
    a recursion deeper than that. *)
Fixpoint Insert (fuel : nat) (nodeBound : BBox) (node : SubsurfaceOctreeNode)
    (ip : IrradiancePoint) {struct fuel} : option SubsurfaceOctreeNode :=
  match fuel with
  | O => None
  | Datatypes.S fuel' =>
      let pMid := midpoint nodeBound in
      match node with
      | Leaf p E sumArea ips =>
          match first_null ips with
          | Some i => Some (Leaf p E sumArea (upd i (Some ip) ips))
          | None =>
              children <- redistribute (Insert fuel') nodeBound pMid ips
                            (repeat None 8) ;;
              children' <- insert_child (Insert fuel') nodeBound pMid
                             children ip ;;
              Some (Interior p E sumArea children')
          end
      | Interior p E sumArea children =>
          children' <- insert_child (Insert fuel') nodeBound pMid
                         children ip ;;
          Some (Interior p E sumArea children')
      end
  end.

(** The running values of the two loops of [InitHierarchy]. *)
Record Sums : Type := mkSums {
  sum_E : S;
  sum_p : Point;
  sum_Wt : float;
  sum_Area : float;
  sum_n : nat
}.

(** One round: [wt = e.y(); E += e; p += wt * q; sumWt += wt;
    sumArea += a] and one more counted. *)
Definition accumulate (a : Sums) (e : S) (q : Point) (area : float) : Sums :=
  let wt := sp_y e in
  {| sum_E := sp_add (sum_E a) e;
     sum_p := Point_add (sum_p a) (Point_scale wt q);
     sum_Wt := (sum_Wt a + wt)%f32;
     sum_Area := (sum_Area a + area)%f32;
     sum_n := Datatypes.S (sum_n a) |}.

(** The leaf loop, which breaks at the first null slot. *)
Fixpoint leaf_loop (ips : list (option IrradiancePoint)) (a : Sums) : Sums :=
  match ips with
  | Some ip :: rest =>
      leaf_loop rest (accumulate a (ip_E ip) (ip_p ip) (ip_area ip))
  | _ => a
  end.

(** The interior loop, which skips null children; the children are
    already initialised. *)
Fixpoint interior_loop (children : list (option SubsurfaceOctreeNode))
    (a : Sums) : Sums :=
  match children with
  | [] => a
  | None :: rest => interior_loop rest a
  | Some c :: rest =>
      interior_loop rest
        (accumulate a (node_E c) (node_p c) (node_sumArea c))
  end.

(** [if (sumWt > 0.f) p /= sumWt] *)
Definition centroid (a : Sums) : Point :=
  if F32.gtb (sum_Wt a) F32.zero then Point_div (sum_p a) (sum_Wt a)
  else sum_p a.

(** [E /= i], the count converted to float. *)
Definition mean_E (a : Sums) : S :=
  sp_div (sum_E a) (F32.of_int (Z.of_nat (sum_n a))).

(** [InitHierarchy()].  A child is initialised before it is
    accumulated and no child reads another, so the children are
    initialised first and the loop runs over the results. *)
Fixpoint InitHierarchy (node : SubsurfaceOctreeNode) : SubsurfaceOctreeNode :=
  match node with
  | Leaf p E sumArea ips =>
      let a := leaf_loop ips (mkSums E p F32.zero sumArea 0) in
      Leaf (centroid a) (mean_E a) (sum_Area a) ips
  | Interior p E sumArea children =>
      let children' := map (option_map InitHierarchy) children in
      let a := interior_loop children' (mkSums E p F32.zero sumArea 0) in
      Interior (centroid a) (mean_E a) (sum_Area a) children'
  end.

(** The diffusion reflectance [Rd] enters [Mo] as a function of the
    squared distance. *)
Definition DiffusionReflectance : Type := float -> S.

(** One term [Rd(DistanceSquared(pt, q)) * e * a]. *)
Definition term (Rd : DiffusionReflectance) (pt q : Point) (e : S)
    (a : float) : S :=
  sp_scale (sp_mul (Rd (DistanceSquared pt q)) e) a.

(** The leaf loop of [Mo], which breaks at the first null slot. *)
Fixpoint leaf_Mo (Rd : DiffusionReflectance) (pt : Point)
    (ips : list (option IrradiancePoint)) (Mo : S) : S :=
  match ips with
  | Some ip :: rest =>
      leaf_Mo Rd pt rest
        (sp_add Mo (term Rd pt (ip_p ip) (ip_E ip) (ip_area ip)))
  | _ => Mo
  end.

(** The loop of [Mo] over the children, which skips the null ones;
    [mo c child] is the recursive call on child [c] in octant [child]. *)
Definition visit_children (mo : SubsurfaceOctreeNode -> nat -> S)
    : list (option SubsurfaceOctreeNode) -> nat -> S -> S :=
  fix visit_children (cs : list (option SubsurfaceOctreeNode)) (child : nat)
      (Mo : S) {struct cs} : S :=
    match cs with
    | [] => Mo
    | None :: rest => visit_children rest (Datatypes.S child) Mo
    | Some c :: rest =>
        visit_children rest (Datatypes.S child) (sp_add Mo (mo c child))
    end.

(** [Mo(nodeBound, pt, Rd, maxError)] *)
Fixpoint Mo (node : SubsurfaceOctreeNode) (nodeBound : BBox) (pt : Point)
    (Rd : DiffusionReflectance) (maxError : float) : S :=
  let dw := (node_sumArea node / DistanceSquared pt (node_p node))%f32 in
  if (dw <? maxError)%f32 && negb (Inside nodeBound pt)
  then term Rd pt (node_p node) (node_E node) (node_sumArea node)
  else
    match node with
    | Leaf _ _ _ ips => leaf_Mo Rd pt ips (sp_const F32.zero)
    | Interior _ _ _ children =>
        let pMid := midpoint nodeBound in
        visit_children
          (fun c child =>
             Mo c (octreeChildBound child nodeBound pMid) pt Rd maxError)
          children O (sp_const F32.zero)
    end.

(** *** PoissonPointTask *)

(** The variables shared by the tasks through references. *)
Record Shared : Type := mkShared {
  repeatedFails : Z;
  maxRepeatedFails : Z;
  totalPathsTraced : Z;
  totalRaysTraced : Z;
  numPointsAdded : Z;
  pointOctree : Oct IrradiancePoint;
  irradiancePoints : list IrradiancePoint
}.

(** What the 20000 paths of one round of the [while] loop leave
    behind: the number of rays and the candidate points. *)
Record Batch : Type := mkBatch {
  raysTraced : Z;
  candidates : list IrradiancePoint
}.

Definition pathsTraced : Z := 20000.

(** [PoissonCheck check(minSampleDist, ip.p); octree.Lookup(ip.p, check);
    check.failed] *)
Definition check_failed (minSampleDist : float) (oct : Oct IrradiancePoint)
    (ip : IrradiancePoint) : bool :=
  failed (Lookup oct (ip_p ip) PoissonCheck_call
            (PoissonCheck_new minSampleDist (ip_p ip))).

(** The first pass, under the reader lock. *)
Definition read_pass (minSampleDist : float) (oct : Oct IrradiancePoint)
    (cands : list IrradiancePoint) : list bool :=
  map (check_failed minSampleDist oct) cands.

(** How a round of the [while] loop ends. *)
Inductive Outcome : Type :=
| Continue
| ReturnMaxFails
| ReturnNoBSSRDF.

(** "Update for rejected candidate point":
    [maxRepeatedFails = max(maxRepeatedFails, ++repeatedFails)] *)
Definition reject (st : Shared) : Shared :=
  {| repeatedFails := repeatedFails st + 1;
     maxRepeatedFails := Z.max (maxRepeatedFails st) (repeatedFails st + 1);
     totalPathsTraced := totalPathsTraced st;
     totalRaysTraced := totalRaysTraced st;
     numPointsAdded := numPointsAdded st;
     pointOctree := pointOctree st;
     irradiancePoints := irradiancePoints st |}.

(** The branch that adds the point to the octree and to the vector. *)
Definition deposit (minSampleDist : float) (ip : IrradiancePoint)
    (st : Shared) : Shared :=
  let d := minSampleDist in
  let p := ip_p ip in
  {| repeatedFails := 0;
     maxRepeatedFails := maxRepeatedFails st;
     totalPathsTraced := totalPathsTraced st;
     totalRaysTraced := totalRaysTraced st;
     numPointsAdded := numPointsAdded st + 1;
     pointOctree :=
       octree_Add (pointOctree st) ip
         (mkBBox (mkPoint (px p - d) (py p - d) (pz p - d))%f32
                 (mkPoint (px p + d) (py p + d) (pz p + d))%f32);
     irradiancePoints := irradiancePoints st ++ [ip] |}.

(** The second pass over the candidates and their flags; [true] is the
    [return] inside the loop. *)
Fixpoint second_pass (maxFails : Z) (minSampleDist : float)
    (cands : list (IrradiancePoint * bool)) (st : Shared) : Shared * bool :=
  match cands with
  | [] => (st, false)
  | (ip, candidateRejected) :: rest =>
      if candidateRejected
         || check_failed minSampleDist (pointOctree st) ip
      then
        let st' := reject st in
        if (repeatedFails st' >=? maxFails)%Z then (st', true)
        else second_pass maxFails minSampleDist rest st'
      else second_pass maxFails minSampleDist rest
             (deposit minSampleDist ip st)
  end.

(** From [lock.UpgradeToWrite()] to the end of the round, with the
    writer lock held. *)
Definition write_section (maxFails : Z) (minSampleDist : float) (b : Batch)
    (candidateRejected : list bool) (st : Shared) : Shared * Outcome :=
  if (repeatedFails st >=? maxFails)%Z then (st, ReturnMaxFails)
  else
    let st1 :=
      {| repeatedFails := repeatedFails st;
         maxRepeatedFails := maxRepeatedFails st;
         totalPathsTraced := totalPathsTraced st + pathsTraced;
         totalRaysTraced := totalRaysTraced st + raysTraced b;
         numPointsAdded := numPointsAdded st;
         pointOctree := pointOctree st;
         irradiancePoints := irradiancePoints st |} in
    let '(st2, returned) :=
      second_pass maxFails minSampleDist
        (combine (candidates b) candidateRejected) st1 in
    if returned then (st2, ReturnMaxFails)
    else if (totalPathsTraced st2 >? 50000)%Z && (numPointsAdded st2 =? 0)%Z
    then (st2, ReturnNoBSSRDF)
    else (st2, Continue).

(** [PoissonPointTask::Run()] of a task that runs alone: round [k]
    traces the batch [trace k].  The [while (true)] loop is unrolled
    [fuel] times; [None] means that it has not returned by then. *)
Fixpoint Run (fuel : nat) (maxFails : Z) (minSampleDist : float)
    (trace : nat -> Batch) (k : nat) (st : Shared)
    : option (Shared * Outcome) :=
  match fuel with
  | O => None
  | Datatypes.S fuel' =>
      let b := trace k in
      let flags := read_pass minSampleDist (pointOctree st) (candidates b) in
      match write_section maxFails minSampleDist b flags st with
      | (st', Continue) =>
          Run fuel' maxFails minSampleDist trace (Datatypes.S k) st'
      | (st', out) => Some (st', out)
      end
  end.

(** Several tasks.  The reader/writer lock makes the first pass and
    the write section of a round atomic; between the two, other tasks
    may run theirs. *)
Inductive Phase : Type :=
| Tracing
| Upgrading (b : Batch) (candidateRejected : list bool)
| Returned (out : Outcome).

Record Tasks : Type := mkTasks {
  shared : Shared;
  phases : list Phase
}.

Definition after_write (out : Outcome) : Phase :=
  match out with Continue => Tracing | _ => Returned out end.

(** One atomic action of task [w]; [traces b] says that the scene lets
    a round of path tracing end with batch [b]. *)
Inductive step (maxFails : Z) (minSampleDist : float)
    (traces : Batch -> Prop) : Tasks -> Tasks -> Prop :=
| step_read : forall t w b,
    nth_error (phases t) w = Some Tracing ->
    traces b ->
    step maxFails minSampleDist traces t
      {| shared := shared t;
         phases :=
           upd w (Upgrading b
                    (read_pass minSampleDist (pointOctree (shared t))
                       (candidates b)))
               (phases t) |}
| step_write : forall t w b flags,
    nth_error (phases t) w = Some (Upgrading b flags) ->
    step maxFails minSampleDist traces t
      {| shared :=
           fst (write_section maxFails minSampleDist b flags (shared t));
         phases :=
           upd w (after_write
                    (snd (write_section maxFails minSampleDist b flags
                            (shared t))))
               (phases t) |}.

(** Executions: the configurations reached after [n] actions. *)
Inductive steps (maxFails : Z) (minSampleDist : float)
    (traces : Batch -> Prop) : nat -> Tasks -> Tasks -> Prop :=
| steps_O : forall t, steps maxFails minSampleDist traces O t t
| steps_S : forall n t t' t'',
    steps maxFails minSampleDist traces n t t' ->
    step maxFails minSampleDist traces t' t'' ->
    steps maxFails minSampleDist traces (Datatypes.S n) t t''.

(** *** DipoleSubsurfaceIntegrator *)

Record DipoleSubsurfaceIntegrator : Type := mkDipoleSubsurfaceIntegrator {
  maxSpecularDepth : Z;
  maxError : float;
  minSampleDist : float;
  octree : option SubsurfaceOctreeNode;
  octreeBounds : BBox;
  dsi_irradiancePoints : list IrradiancePoint
}.

(** The shared variables as [Preprocess] declares them. *)
Definition Shared_init (octBounds : BBox) (ips : list IrradiancePoint)
    : Shared :=
  {| repeatedFails := 0; maxRepeatedFails := 0; totalPathsTraced := 0;
     totalRaysTraced := 0; numPointsAdded := 0;
     pointOctree := octree_new octBounds;
     irradiancePoints := ips |}.

Definition Tasks_init (nTasks : nat) (octBounds : BBox)
    (ips : list IrradiancePoint) : Tasks :=
  {| shared := Shared_init octBounds ips; phases := repeat Tracing nTasks |}.

(** [maxFails = 2000], a tenth of it under PBRT_QUICK_RENDER. *)
Definition maxFails_of (quick : bool) : Z :=
  if quick then Z.max 10 (2000 / 10) else 2000.

(** "Compute irradiance values at sample points": [lightE l ip] is the
    estimate [Elight / nSamples] that light [l] yields at [ip]. *)
Definition add_irradiance {Light : Type}
    (lightE : Light -> IrradiancePoint -> S) (lights : list Light)
    (ip : IrradiancePoint) : IrradiancePoint :=
  fold_left
    (fun ip l =>
       {| ip_p := ip_p ip; ip_n := ip_n ip;
          ip_E := sp_add (ip_E ip) (lightE l ip);
          ip_area := ip_area ip; ip_rayEpsilon := ip_rayEpsilon ip |})
    lights ip.

(** "Create octree of clustered irradiance samples": the insertion
    loop, which skips the points without luminance. *)
Fixpoint insert_all (fuel : nat) (bounds : BBox)
    (ips : list IrradiancePoint) (root : SubsurfaceOctreeNode)
    : option SubsurfaceOctreeNode :=
  match ips with
  | [] => Some root
  | ip :: rest =>
      if F32.gtb (sp_y (ip_E ip)) F32.zero
      then root' <- Insert fuel bounds root ip ;;
           insert_all fuel bounds rest root'
      else insert_all fuel bounds rest root
  end.

(** [DipoleSubsurfaceIntegrator::Preprocess].  [lights] is
    [scene->lights]; [deposited] is the vector [irradiancePoints] as the
    tasks leave it.  [None] is an insertion nested deeper than
    [fuel]. *)
Definition Preprocess {Light : Type} (fuel : nat) (lights : list Light)
    (lightE : Light -> IrradiancePoint -> S)
    (deposited : list IrradiancePoint) (dsi : DipoleSubsurfaceIntegrator)
    : option DipoleSubsurfaceIntegrator :=
  match lights with
  | [] => Some dsi
  | _ :: _ =>
      let ips := map (add_irradiance lightE lights) deposited in
      let bounds :=
        fold_left (fun b ip => Union b (ip_p ip)) ips (octreeBounds dsi) in
      root <- insert_all fuel bounds ips Node_new ;;
      Some {| maxSpecularDepth := maxSpecularDepth dsi;
              maxError := maxError dsi;
              minSampleDist := minSampleDist dsi;
              octree := Some (InitHierarchy root);
              octreeBounds := bounds;
              dsi_irradiancePoints := ips |}
  end.

(** [octree->Mo(octreeBounds, p, Rd, maxError)] in [Li]; a null
    [octree] has no result. *)
Definition Li_Mo (dsi : DipoleSubsurfaceIntegrator) (p : Point)
    (Rd : DiffusionReflectance) : option S :=
  root <- octree dsi ;;
  Some (Mo root (octreeBounds dsi) p Rd (maxError dsi)).

End WithSpectrum.
End DipoleSubsurface.

(** ** Concrete inputs *)

(** A spectrum with one integer coefficient, whose sums are exact; a
    float enters by truncation, as in the conversion to [int]. *)
Definition truncate (x : float) : Z :=
  match x with
  | S754_finite s m (Zneg k) => cond_Zopp s (Z.pos m / 2 ^ Z.pos k)
  | S754_finite s m e => cond_Zopp s (Z.pos m * 2 ^ e)
  | _ => 0
  end.

#[export] Instance Z_ops : SpectrumOps Z := {|
  sp_const := truncate;
  sp_add := Z.add;
  sp_mul := Z.mul;
  sp_scale := fun s a => (s * truncate a)%Z;
  sp_div := fun s a => Z.quot s (truncate a);
  sp_y := F32.of_int
|}.

(** The point (x, y, z) with integer coordinates. *)
Definition Point_of (x y z : Z) : Point :=
  mkPoint (F32.of_int x) (F32.of_int y) (F32.of_int z).

(** An irradiance point at (x, y, z) with irradiance [E] and area 2. *)
Definition ipoint {S : Type} (x y z : Z) (E : S)
    : DipoleSubsurface.IrradiancePoint (S:=S) :=
  {| DipoleSubsurface.ip_p := Point_of x y z;
     DipoleSubsurface.ip_n := mkNormal F32.zero F32.zero F32.one;
     DipoleSubsurface.ip_E := E;
     DipoleSubsurface.ip_area := F32.of_int 2;
     DipoleSubsurface.ip_rayEpsilon := F32.ratio 1 1000 |}.

Definition grey (v : Z) : RGB := sp_const (F32.of_int v).

(** Ten lit points and a dark one in the box from (0,0,0) to (8,8,8): the
    ninth insertion turns the root into an interior node. *)
Definition cube8 : BBox := mkBBox (Point_of 0 0 0) (Point_of 8 8 8).

Definition cloud {S : Type} (E : Z -> S)
    : list (DipoleSubsurface.IrradiancePoint (S:=S)) :=
  [ ipoint 1 1 1 (E 1%Z); ipoint 7 1 1 (E 2%Z); ipoint 1 7 1 (E 3%Z);
    ipoint 1 1 7 (E 4%Z); ipoint 5 5 5 (E 0%Z); ipoint 7 7 1 (E 5%Z);
    ipoint 7 1 7 (E 6%Z); ipoint 1 7 7 (E 7%Z); ipoint 7 7 7 (E 8%Z);
    ipoint 2 2 2 (E 9%Z); ipoint 3 3 3 (E 10%Z) ].


(** One task in a scene whose first batch holds one candidate and whose
    later batches hold none. *)
Definition lonely_trace (k : nat)
    : DipoleSubsurface.Batch (S:=RGB) :=
  match k with
  | O => {| DipoleSubsurface.raysTraced := 60000;
            DipoleSubsurface.candidates := [ipoint 1 1 1 (grey 0)] |}
  | Datatypes.S _ => {| DipoleSubsurface.raysTraced := 60000;
                        DipoleSubsurface.candidates := [] |}
  end.

(** The shared variables of the tasks over the box [cube8], with the
    list octree. *)
Definition shared0 : DipoleSubsurface.Shared (S:=RGB) (Oct:=ListOctree) :=
  DipoleSubsurface.Shared_init cube8 [].

(** An integrator as [CreateDipoleSubsurfaceIntegrator] makes it from the
    default parameters, before [Preprocess]: no octree, empty bounds, no
    points. *)
Definition dsi_default : DipoleSubsurface.DipoleSubsurfaceIntegrator (S:=RGB) :=
  {| DipoleSubsurface.maxSpecularDepth := 5;
     DipoleSubsurface.maxError := F32.ratio 1 20;
     DipoleSubsurface.minSampleDist := F32.ratio 1 4;
     DipoleSubsurface.octree := None;
     DipoleSubsurface.octreeBounds := BBox0;
     DipoleSubsurface.dsi_irradiancePoints := [] |}.


(** An integrator with the default parameters and a new octree over the
    box [cube8] shifted to contain the origin. *)
Definition ic_default
    : IrradianceCache.IrradianceCacheIntegrator (S:=RGB) (Oct:=ListOctree) :=
  {| IrradianceCache.minSamplePixelSpacing := F32.ratio 5 2;
     IrradianceCache.maxSamplePixelSpacing := F32.of_int 15;
     IrradianceCache.minWeight := F32.ratio 1 2;
     IrradianceCache.cosMaxSampleAngleDifference := F32.ratio 98480775 100000000;
     IrradianceCache.nSamples := 4096;
     IrradianceCache.maxSpecularDepth := 5;
     IrradianceCache.maxIndirectDepth := 3;
     IrradianceCache.octree :=
       Some (octree_new (mkBBox (Point_of (-8) (-8) (-8)) (Point_of 8 8 8))) |}.

(** A cache miss at the origin with normal (0,0,1): the gathered
    irradiance is (1, 2, 3), the nearest hit is at distance 2 and the
    pixel spacing is 1/10, which makes the validity radius 1. *)
Definition miss_at_origin : IrradianceCache.Query (S:=RGB) :=
  {| IrradianceCache.query_p := Point0;
     IrradianceCache.query_ng := mkNormal F32.zero F32.zero F32.one;
     IrradianceCache.pixelSpacing := F32.ratio 1 10;
     IrradianceCache.gathered :=
       {| IrradianceCache.estimateE :=
            mkRGB (F32.of_int 1) (F32.of_int 2) (F32.of_int 3);
          IrradianceCache.weightedPrimaryDir :=
            mkVector F32.zero F32.zero F32.one;
          IrradianceCache.minHitDistance := F32.of_int 2 |} |}.

(** The cache after that miss: one record. *)
Definition cache_one_record
    : IrradianceCache.IrradianceCacheIntegrator (S:=RGB) (Oct:=ListOctree) :=
  IrradianceCache.indirectLo_cache ic_default miss_at_origin.

Definition octree_one_record
    : ListOctree (IrradianceCache.IrradianceSample (S:=RGB)) :=
  match IrradianceCache.octree cache_one_record with
  | Some o => o
  | None => octree_new BBox0
  end.

Definition the_record : IrradianceCache.IrradianceSample (S:=RGB) :=
  {| IrradianceCache.sE := mkRGB (F32.of_int 1) (F32.of_int 2) (F32.of_int 3);
     IrradianceCache.sn := mkNormal F32.zero F32.zero F32.one;
     IrradianceCache.sp := Point0;
     IrradianceCache.swAvg := mkVector F32.zero F32.zero F32.one;
     IrradianceCache.smaxDist := F32.one |}.


(* ===================================================================== *)
(** * Part II.  The proofs                                               *)
(* ===================================================================== *)

(** ** binary32: signs *)

Section Signs.

(** The sign bit of a result is [s], unless the result is NaN. *)
Definition signed (s : bool) (x : float) : Prop :=
  match x with
  | S754_zero s' | S754_infinity s' | S754_finite s' _ _ => s' = s
  | S754_nan => True
  end.

Lemma binary_round_aux_signed s m e l :
  signed s (binary_round_aux F32.prec F32.emax s m e l).
Proof.
  unfold binary_round_aux.
  destruct (shr_fexp F32.prec F32.emax m e l) as [mrs' e'].
  destruct (shr_fexp F32.prec F32.emax _ e' loc_Exact) as [mrs'' e''].
  destruct (shr_m mrs'') as [|p|p]; simpl; auto.
  destruct (e'' <=? 104)%Z; simpl; auto.
Qed.

Lemma binary_round_signed s m e :
  signed s (binary_round F32.prec F32.emax s m e).
Proof.
  unfold binary_round.
  destruct (shl_align m e _) as [mz ez].
  apply binary_round_aux_signed.
Qed.

Lemma signed_nonneg x : signed false x <-> F32.nonneg_or_nan x = true.
Proof.
  destruct x as [[|]|[|]| |[|] m e]; simpl; split; intros; auto; discriminate.
Qed.

Lemma add_nonneg x y :
  F32.nonneg_or_nan x = true -> F32.nonneg_or_nan y = true ->
  F32.nonneg_or_nan (x + y)%f32 = true.
Proof.
  destruct x as [[|]|[|]| |[|] mx ex], y as [[|]|[|]| |[|] my ey];
    simpl; intros Hx Hy; try discriminate; try reflexivity.
  apply signed_nonneg.
  unfold F32.add, SFadd, cond_Zopp.
  cbn [binary_normalize Z.add].
  apply binary_round_signed.
Qed.

Lemma mul_nonneg x y :
  F32.nonneg_or_nan x = true -> F32.nonneg_or_nan y = true ->
  F32.nonneg_or_nan (x * y)%f32 = true.
Proof.
  destruct x as [[|]|[|]| |[|] mx ex], y as [[|]|[|]| |[|] my ey];
    simpl; intros Hx Hy; try discriminate; try reflexivity.
  apply signed_nonneg. apply binary_round_aux_signed.
Qed.

Lemma square_nonneg x : F32.nonneg_or_nan (x * x)%f32 = true.
Proof.
  destruct x as [[|]|[|]| |[|] mx ex]; try reflexivity;
    apply signed_nonneg; apply binary_round_aux_signed.
Qed.

Lemma div_nonneg x y :
  F32.nonneg_or_nan x = true -> F32.nonneg_or_nan y = true ->
  F32.nonneg_or_nan (x / y)%f32 = true.
Proof.
  destruct x as [[|]|[|]| |[|] mx ex], y as [[|]|[|]| |[|] my ey];
    simpl; intros Hx Hy; try discriminate; try reflexivity.
  apply signed_nonneg.
  unfold F32.div, SFdiv.
  destruct (SFdiv_core_binary _ _ _ _ _ _) as [[mz ez] lz].
  apply binary_round_aux_signed.
Qed.

Lemma nonneg_not_lt_zero x :
  F32.nonneg_or_nan x = true -> (x <? F32.zero)%f32 = false.
Proof.
  destruct x as [[|]|[|]| |[|] mx ex]; simpl; intros H;
    try discriminate; reflexivity.
Qed.

Lemma DistanceSquared_nonneg (p q : Point) :
  F32.nonneg_or_nan (DistanceSquared p q) = true.
Proof.
  unfold DistanceSquared, LengthSquared.
  repeat apply add_nonneg; apply square_nonneg.
Qed.

End Signs.


(** ** binary32: exact results *)

Section Exact.

Local Open Scope Z_scope.
Unset Implicit Arguments.

(** [m] shifted left by [n] bits. *)
Definition pshift (m : positive) (n : nat) : positive := Nat.iter n xO m.

Lemma pshift_Z m n : Z.pos (pshift m n) = Z.pos m * 2 ^ Z.of_nat n.
Proof.
  induction n as [|n IH].
  - simpl. lia.
  - unfold pshift in *. rewrite Nat.iter_succ, Pos2Z.inj_xO, IH.
    rewrite Nat2Z.inj_succ, Z.pow_succ_r by lia. lia.
Qed.

Lemma digits_pshift m n :
  Z.pos (digits2_pos (pshift m n)) = Z.pos (digits2_pos m) + Z.of_nat n.
Proof.
  induction n as [|n IH].
  - simpl. lia.
  - unfold pshift in *. rewrite Nat.iter_succ. cbn [digits2_pos].
    rewrite Pos2Z.inj_succ, IH. lia.
Qed.

Lemma iter_pos_nat {A : Type} (f : A -> A) (p : positive) : forall x,
  iter_pos f p x = Nat.iter (Pos.to_nat p) f x.
Proof.
  induction p as [p IH|p IH|]; intros x; cbn [iter_pos].
  - rewrite !IH, Pos2Nat.inj_xI.
    replace (S (2 * Pos.to_nat p))%nat
      with (Pos.to_nat p + (Pos.to_nat p + 1))%nat by lia.
    rewrite !Nat.iter_add. reflexivity.
  - rewrite !IH, Pos2Nat.inj_xO.
    replace (2 * Pos.to_nat p)%nat with (Pos.to_nat p + Pos.to_nat p)%nat by lia.
    rewrite Nat.iter_add. reflexivity.
  - reflexivity.
Qed.

Lemma shr_pshift m n :
  Nat.iter n shr_1 (Build_shr_record (Z.pos (pshift m n)) false false)
  = Build_shr_record (Z.pos m) false false.
Proof.
  induction n as [|n IH].
  - reflexivity.
  - rewrite Nat.iter_succ_r. unfold pshift. rewrite Nat.iter_succ.
    cbn [shr_1 orb]. exact IH.
Qed.

Lemma shr_exact m n e :
  shr (Build_shr_record (Z.pos (pshift m n)) false false) e (Z.of_nat n)
  = (Build_shr_record (Z.pos m) false false, e + Z.of_nat n).
Proof.
  destruct n as [|n].
  - cbn [Z.of_nat shr pshift Nat.iter nat_rect]. now rewrite Z.add_0_r.
  - unfold shr. cbn [Z.of_nat]. rewrite iter_pos_nat, SuccNat2Pos.id_succ.
    now rewrite shr_pshift.
Qed.

Lemma bounded_canonical m e :
  bounded F32.prec F32.emax m e = true ->
  fexp F32.prec F32.emax (Z.pos (digits2_pos m) + e) = e /\ e <= 104.
Proof.
  unfold bounded, canonical_mantissa. intros H.
  apply andb_true_iff in H. destruct H as [H1 H2].
  apply Z.eqb_eq in H1. apply Z.leb_le in H2. unfold F32.emax, F32.prec in *.
  split; [exact H1 | lia].
Qed.

(** Rounding a representable value yields its canonical representation. *)
Lemma round_exact_shifted s m e n :
  bounded F32.prec F32.emax m e = true ->
  binary_round_aux F32.prec F32.emax s (Z.pos (pshift m n)) (e - Z.of_nat n) loc_Exact
  = S754_finite s m e.
Proof.
  intros Hb. destruct (bounded_canonical _ _ Hb) as [Hc He].
  unfold binary_round_aux, shr_fexp. cbn [Zdigits2 shr_record_of_loc].
  rewrite digits_pshift.
  replace (Z.pos (digits2_pos m) + Z.of_nat n + (e - Z.of_nat n))
    with (Z.pos (digits2_pos m) + e) by lia.
  rewrite Hc.
  replace (e - (e - Z.of_nat n)) with (Z.of_nat n) by lia.
  rewrite shr_exact. cbn [shr_m loc_of_shr_record round_nearest_even Zdigits2
                          shr_record_of_loc].
  replace (e - Z.of_nat n + Z.of_nat n) with e by lia.
  rewrite Hc, Z.sub_diag. cbn [shr shr_m].
  replace (e <=? F32.emax - F32.prec) with true by (unfold F32.emax, F32.prec; lia).
  reflexivity.
Qed.

Lemma round_exact s M E m e :
  bounded F32.prec F32.emax m e = true ->
  E <= e -> Z.pos M = Z.pos m * 2 ^ (e - E) ->
  binary_round_aux F32.prec F32.emax s (Z.pos M) E loc_Exact = S754_finite s m e.
Proof.
  intros Hb HE HM.
  assert (HMs : M = pshift m (Z.to_nat (e - E))).
  { apply Pos2Z.inj. rewrite pshift_Z, Z2Nat.id by lia. exact HM. }
  rewrite HMs.
  pose proof (round_exact_shifted s m e (Z.to_nat (e - E)) Hb) as H.
  replace (e - Z.of_nat (Z.to_nat (e - E))) with E in H by lia.
  exact H.
Qed.

(** [binary_round] on a representable value, whichever way it is scaled. *)
Lemma shl_align_same m e e' : e <= e' -> shl_align m e e' = (m, e).
Proof.
  intros H. unfold shl_align.
  destruct (e' - e) eqn:Hd; try reflexivity. lia.
Qed.

Lemma pos_iter_xO m p : Pos.iter xO m p = pshift m (Pos.to_nat p).
Proof.
  unfold pshift. rewrite Pos2Nat.inj_iter. reflexivity.
Qed.

Lemma shl_align_down m e e' :
  e' < e -> shl_align m e e' = (pshift m (Z.to_nat (e - e')), e').
Proof.
  intros H. unfold shl_align.
  destruct (e' - e) as [|p|p] eqn:Hd; try lia.
  rewrite pos_iter_xO. do 2 f_equal. lia.
Qed.

Lemma binary_round_exact_up s M E m e :
  bounded F32.prec F32.emax m e = true ->
  E <= e -> Z.pos M = Z.pos m * 2 ^ (e - E) ->
  binary_round F32.prec F32.emax s M E = S754_finite s m e.
Proof.
  intros Hb HE HM. destruct (bounded_canonical _ _ Hb) as [Hc He].
  assert (HMs : M = pshift m (Z.to_nat (e - E))).
  { apply Pos2Z.inj. rewrite pshift_Z, Z2Nat.id by lia. exact HM. }
  unfold binary_round.
  assert (Hf : fexp F32.prec F32.emax (Z.pos (digits2_pos M) + E) = e).
  { rewrite HMs, digits_pshift, Z2Nat.id by lia.
    replace (Z.pos (digits2_pos m) + (e - E) + E)
      with (Z.pos (digits2_pos m) + e) by lia.
    exact Hc. }
  rewrite Hf, shl_align_same by exact HE.
  now apply round_exact.
Qed.

Lemma binary_round_exact_down s M E m e :
  bounded F32.prec F32.emax m e = true ->
  e <= E -> Z.pos m = Z.pos M * 2 ^ (E - e) ->
  binary_round F32.prec F32.emax s M E = S754_finite s m e.
Proof.
  intros Hb HE HM. destruct (bounded_canonical _ _ Hb) as [Hc He].
  assert (Hms : m = pshift M (Z.to_nat (E - e))).
  { apply Pos2Z.inj. rewrite pshift_Z, Z2Nat.id by lia. exact HM. }
  unfold binary_round.
  assert (Hf : fexp F32.prec F32.emax (Z.pos (digits2_pos M) + E) = e).
  { rewrite <- Hc. f_equal.
    rewrite Hms, digits_pshift, Z2Nat.id by lia. lia. }
  rewrite Hf.
  destruct (Z.eq_dec e E) as [->|Hne].
  - rewrite shl_align_same by lia.
    apply round_exact; [exact Hb|lia|].
    rewrite Z.sub_diag in *. lia.
  - rewrite shl_align_down by lia. rewrite <- Hms.
    apply round_exact; [exact Hb|lia|]. rewrite Z.sub_diag. lia.
Qed.

(** ** Exact values *)

(** The value of a finite float, scaled by 2^200 so as to be an integer. *)
Definition scaled (s : bool) (m : positive) (e : Z) : Z :=
  cond_Zopp s (Z.pos m * 2 ^ (e + 200)).

Definition val (x : spec_float) : Z :=
  match x with
  | S754_finite s m e => scaled s m e
  | _ => 0
  end.

Lemma pow2_pos k : 0 < 2 ^ k \/ k < 0.
Proof.
  destruct (Z.lt_ge_cases k 0); [right; lia | left; apply Z.pow_pos_nonneg; lia].
Qed.

Lemma pow2_split a b : 0 <= a -> 0 <= b -> 2 ^ (a + b) = 2 ^ a * 2 ^ b.
Proof. intros. apply Z.pow_add_r; lia. Qed.

Lemma bounded_emin m e : bounded F32.prec F32.emax m e = true -> -149 <= e.
Proof.
  intros H. destruct (bounded_canonical _ _ H) as [Hc _].
  unfold fexp, emin, F32.prec, F32.emax in Hc. lia.
Qed.

(** Two scalings of one value. *)
Lemma same_value_cases M E m e :
  -200 <= E -> -200 <= e ->
  Z.pos M * 2 ^ (E + 200) = Z.pos m * 2 ^ (e + 200) ->
  (E <= e /\ Z.pos M = Z.pos m * 2 ^ (e - E)) \/
  (e <= E /\ Z.pos m = Z.pos M * 2 ^ (E - e)).
Proof.
  intros HE He H.
  destruct (Z.le_gt_cases E e) as [Hle|Hgt]; [left|right]; split; try lia.
  - replace (e + 200) with ((e - E) + (E + 200)) in H by lia.
    rewrite (pow2_split (e - E) (E + 200)) in H by lia.
    assert (0 < 2 ^ (E + 200)) by (apply Z.pow_pos_nonneg; lia).
    apply (Z.mul_reg_r _ _ (2 ^ (E + 200))); [lia|]. rewrite H. ring.
  - replace (E + 200) with ((E - e) + (e + 200)) in H by lia.
    rewrite (pow2_split (E - e) (e + 200)) in H by lia.
    assert (0 < 2 ^ (e + 200)) by (apply Z.pow_pos_nonneg; lia).
    apply (Z.mul_reg_r _ _ (2 ^ (e + 200))); [lia|]. rewrite <- H. ring.
Qed.

Lemma binary_round_val s M E m e :
  bounded F32.prec F32.emax m e = true ->
  -200 <= E ->
  Z.pos M * 2 ^ (E + 200) = Z.pos m * 2 ^ (e + 200) ->
  binary_round F32.prec F32.emax s M E = S754_finite s m e.
Proof.
  intros Hb HE H.
  pose proof (bounded_emin _ _ Hb) as He.
  destruct (same_value_cases M E m e) as [[H1 H2]|[H1 H2]]; try lia; auto.
  - now apply binary_round_exact_up.
  - now apply binary_round_exact_down.
Qed.

Lemma binary_normalize_val z E s m e :
  bounded F32.prec F32.emax m e = true ->
  -200 <= E ->
  z * 2 ^ (E + 200) = scaled s m e ->
  binary_normalize F32.prec F32.emax z E false = S754_finite s m e.
Proof.
  intros Hb HE H. unfold scaled in H.
  pose proof (bounded_emin _ _ Hb) as He.
  assert (0 < 2 ^ (E + 200)) by (apply Z.pow_pos_nonneg; lia).
  assert (0 < 2 ^ (e + 200)) by (apply Z.pow_pos_nonneg; lia).
  destruct z as [|M|M], s; cbn [cond_Zopp binary_normalize] in *; try nia;
    apply binary_round_val; auto; lia.
Qed.

Lemma shl_align_val m e e' :
  e' <= e -> -200 <= e' ->
  Z.pos (fst (shl_align m e e')) * 2 ^ (e' + 200) = Z.pos m * 2 ^ (e + 200).
Proof.
  intros H H'.
  destruct (Z.eq_dec e e') as [->|Hne].
  - rewrite shl_align_same by lia. reflexivity.
  - rewrite shl_align_down by lia. cbn [fst].
    rewrite pshift_Z, Z2Nat.id by lia.
    replace (e + 200) with ((e - e') + (e' + 200)) by lia.
    rewrite (pow2_split (e - e') (e' + 200)) by lia. lia.
Qed.

(** Addition and subtraction are exact when the exact result is a float. *)
Lemma add_exact sx mx ex sy my ey s m e :
  bounded F32.prec F32.emax m e = true ->
  -200 <= ex -> -200 <= ey ->
  scaled sx mx ex + scaled sy my ey = scaled s m e ->
  SFadd F32.prec F32.emax (S754_finite sx mx ex) (S754_finite sy my ey)
  = S754_finite s m e.
Proof.
  intros Hb Hx Hy H. unfold SFadd.
  apply binary_normalize_val; auto; [lia|].
  rewrite <- H. unfold scaled.
  rewrite Z.mul_add_distr_r.
  pose proof (shl_align_val mx ex (Z.min ex ey)) as H1.
  pose proof (shl_align_val my ey (Z.min ex ey)) as H2.
  destruct sx, sy; cbn [cond_Zopp]; rewrite ?Z.mul_opp_l; rewrite H1, H2; lia.
Qed.

Lemma sub_exact sx mx ex sy my ey s m e :
  bounded F32.prec F32.emax m e = true ->
  -200 <= ex -> -200 <= ey ->
  scaled sx mx ex - scaled sy my ey = scaled s m e ->
  SFsub F32.prec F32.emax (S754_finite sx mx ex) (S754_finite sy my ey)
  = S754_finite s m e.
Proof.
  intros Hb Hx Hy H. unfold SFsub.
  apply binary_normalize_val; auto; [lia|].
  rewrite <- H. unfold scaled.
  rewrite Z.mul_sub_distr_r.
  pose proof (shl_align_val mx ex (Z.min ex ey)) as H1.
  pose proof (shl_align_val my ey (Z.min ex ey)) as H2.
  destruct sx, sy; cbn [cond_Zopp]; rewrite ?Z.mul_opp_l; rewrite H1, H2; lia.
Qed.

Lemma digits_bounds m :
  2 ^ (Z.pos (digits2_pos m) - 1) <= Z.pos m < 2 ^ Z.pos (digits2_pos m).
Proof.
  induction m as [p IH|p IH|]; cbn [digits2_pos].
  - rewrite Pos2Z.inj_succ, (Pos2Z.inj_xI p).
    set (d := Z.pos (digits2_pos p)) in *.
    assert (H1 : 2 ^ (Z.succ d - 1) = 2 * 2 ^ (d - 1)).
    { replace (Z.succ d - 1) with (Z.succ (d - 1)) by lia.
      apply Z.pow_succ_r. lia. }
    assert (H2 : 2 ^ Z.succ d = 2 * 2 ^ d) by (apply Z.pow_succ_r; lia).
    rewrite H1, H2. lia.
  - rewrite Pos2Z.inj_succ, (Pos2Z.inj_xO p).
    set (d := Z.pos (digits2_pos p)) in *.
    assert (H1 : 2 ^ (Z.succ d - 1) = 2 * 2 ^ (d - 1)).
    { replace (Z.succ d - 1) with (Z.succ (d - 1)) by lia.
      apply Z.pow_succ_r. lia. }
    assert (H2 : 2 ^ Z.succ d = 2 * 2 ^ d) by (apply Z.pow_succ_r; lia).
    rewrite H1, H2. lia.
  - simpl. lia.
Qed.

Lemma digits_same_value M E m e :
  -200 <= E -> -200 <= e ->
  Z.pos M * 2 ^ (E + 200) = Z.pos m * 2 ^ (e + 200) ->
  Z.pos (digits2_pos M) + E = Z.pos (digits2_pos m) + e.
Proof.
  intros HE He H.
  destruct (same_value_cases M E m e HE He H) as [[H1 H2]|[H1 H2]].
  - assert (HMs : M = pshift m (Z.to_nat (e - E))).
    { apply Pos2Z.inj. rewrite pshift_Z, Z2Nat.id by lia. exact H2. }
    rewrite HMs, digits_pshift, Z2Nat.id by lia. lia.
  - assert (Hms : m = pshift M (Z.to_nat (E - e))).
    { apply Pos2Z.inj. rewrite pshift_Z, Z2Nat.id by lia. exact H2. }
    rewrite Hms, digits_pshift, Z2Nat.id by lia. lia.
Qed.

Lemma fexp_le a b : a <= b -> fexp F32.prec F32.emax a <= fexp F32.prec F32.emax b.
Proof. unfold fexp, emin, F32.prec, F32.emax. lia. Qed.

(** A value with at most 24 significant bits, in the exponent range, is
    a float. *)
Lemma exists_canonical V E :
  Z.pos (digits2_pos V) <= 24 -> -149 <= E <= 104 ->
  exists m e,
    bounded F32.prec F32.emax m e = true /\
    Z.pos m * 2 ^ (e + 200) = Z.pos V * 2 ^ (E + 200).
Proof.
  intros HV HE.
  set (e := fexp F32.prec F32.emax (Z.pos (digits2_pos V) + E)).
  assert (He : -149 <= e <= E) by (unfold e, fexp, emin, F32.prec, F32.emax; lia).
  exists (pshift V (Z.to_nat (E - e))), e. split.
  - unfold bounded, canonical_mantissa.
    rewrite digits_pshift, Z2Nat.id by lia.
    replace (Z.pos (digits2_pos V) + (E - e) + e)
      with (Z.pos (digits2_pos V) + E) by lia.
    fold e. rewrite Z.eqb_refl. unfold F32.emax, F32.prec. cbn [andb]. lia.
  - rewrite pshift_Z, Z2Nat.id by lia.
    replace (E + 200) with ((E - e) + (e + 200)) by lia.
    rewrite (pow2_split (E - e) (e + 200)) by lia. lia.
Qed.

(** Division by a power of two is exact when the exact quotient is a
    float. *)
Lemma div_pow2_exact sx mx ex sy ey m e :
  bounded F32.prec F32.emax m e = true ->
  -200 <= ex - ey - 23 ->
  Z.pos mx * 2 ^ (ex - ey - 23 + 200) = Z.pos m * 2 ^ (e + 200) ->
  SFdiv F32.prec F32.emax (S754_finite sx mx ex) (S754_finite sy 8388608 ey)
  = S754_finite (xorb sx sy) m e.
Proof.
  intros Hb HJ H.
  pose proof (bounded_emin _ _ Hb) as He.
  destruct (bounded_canonical _ _ Hb) as [Hc _].
  pose proof (digits_same_value mx (ex - ey - 23) m e HJ ltac:(lia) H) as Hd.
  unfold SFdiv, SFdiv_core_binary.
  change (Zdigits2 (Z.pos 8388608)) with 24.
  cbn [Zdigits2].
  set (e0 := Z.min (fexp F32.prec F32.emax (Z.pos (digits2_pos mx) + ex - (24 + ey)))
                   (ex - ey)).
  assert (He0 : e0 <= e).
  { unfold e0. rewrite <- Hc.
    pose proof (fexp_le (Z.pos (digits2_pos mx) + ex - (24 + ey))
                  (Z.pos (digits2_pos m) + e) ltac:(lia)). lia. }
  assert (He0' : e0 <= ex - ey) by (unfold e0; lia).
  assert (He0'' : -177 <= e0)
    by (unfold e0, fexp, emin, F32.prec, F32.emax; lia).
  set (m' := match ex - ey - e0 with
             | 0 => Z.pos mx
             | Z.pos _ => Z.shiftl (Z.pos mx) (ex - ey - e0)
             | Z.neg _ => 0
             end).
  assert (Hm' : m' = Z.pos mx * 2 ^ (ex - ey - e0)).
  { unfold m'. destruct (ex - ey - e0) as [|p|p] eqn:Hs; try lia.
    rewrite Z.shiftl_mul_pow2 by lia. reflexivity. }
  assert (Hq : m' = (Z.pos m * 2 ^ (e - e0)) * 8388608).
  { rewrite Hm'.
    apply (Z.mul_reg_r _ _ (2 ^ (e0 - 23 + 200)));
      [assert (0 < 2 ^ (e0 - 23 + 200)) by (apply Z.pow_pos_nonneg; lia); lia|].
    rewrite <- Z.mul_assoc, <- (pow2_split (ex - ey - e0) (e0 - 23 + 200)) by lia.
    replace (ex - ey - e0 + (e0 - 23 + 200)) with (ex - ey - 23 + 200) by lia.
    rewrite H.
    change 8388608 with (2 ^ 23).
    rewrite <- !Z.mul_assoc.
    rewrite <- (pow2_split 23 (e0 - 23 + 200)) by lia.
    rewrite <- (pow2_split (e - e0) (23 + (e0 - 23 + 200))) by lia.
    f_equal. f_equal. lia. }
  pose proof (Z_div_mod m' 8388608 ltac:(lia)) as Hdm.
  destruct (Z.div_eucl m' 8388608) as [q r].
  assert (Hqr : q = Z.pos m * 2 ^ (e - e0) /\ r = 0) by lia.
  destruct Hqr as [-> ->].
  change (new_location 8388608 0) with loc_Exact.
  assert (Hpos : 0 < Z.pos m * 2 ^ (e - e0)).
  { assert (0 < 2 ^ (e - e0)) by (apply Z.pow_pos_nonneg; lia). lia. }
  destruct (Z.pos m * 2 ^ (e - e0)) as [|Mq|Mq] eqn:HMq; try lia.
  apply round_exact; auto.
Qed.

(** ** Identities *)

Lemma sub_self (x : F32.float) :
  F32.is_finite x = true -> F32.sub x x = F32.zero.
Proof.
  destruct x as [[|]|[|]| |s m e]; simpl; intros H; try discriminate;
    try reflexivity.
  unfold F32.sub, SFsub.
  rewrite Z.min_id, shl_align_same by lia. cbn [fst].
  rewrite Z.sub_diag. reflexivity.
Qed.

Lemma mul_one_r (x : F32.float) :
  F32.valid x = true -> F32.mul x F32.one = x.
Proof.
  destruct x as [[|]|[|]| |s m e]; intros H; try reflexivity.
  unfold F32.mul, F32.one, SFmul. rewrite xorb_false_r.
  apply round_exact; [exact H | lia |].
  replace (e - (e + -23)) with 23 by lia.
  rewrite Pos2Z.inj_mul. reflexivity.
Qed.

Lemma div_one_r (x : F32.float) :
  F32.valid x = true -> F32.div x F32.one = x.
Proof.
  destruct x as [[|]|[|]| |s m e]; intros H; try reflexivity.
  unfold F32.div, F32.one.
  pose proof (bounded_emin _ _ H) as He.
  rewrite (div_pow2_exact s m e false (-23) m e); auto; try lia.
  - now rewrite xorb_false_r.
  - do 2 f_equal. lia.
Qed.

Set Implicit Arguments.

End Exact.

Import Montecarlo.

(** ** Distribution1D: the pdf of a discrete sample *)

(** What the code writes through [pdf], for every distribution and every
    [u]: the function value of the bin over [funcInt], without the count. *)
Lemma SampleDiscrete_pdf (d : Distribution1D) (u : float) (i : Z) (pdf : float) :
  SampleDiscrete d u = Some (i, pdf) ->
  exists fi, read (func d) i = Some fi /\ pdf = (fi / funcInt d)%f32.
Proof.
  unfold SampleDiscrete.
  destruct (read (func d) (find_offset d u)) as [fo|] eqn:Hfo; simpl; [|discriminate].
  intros H; injection H as <- <-.
  exists fo; split; [exact Hfo | reflexivity].
Qed.

(** The uniform distribution over four bins. *)
Definition uniform4 : Distribution1D :=
  Distribution1D_new [F32.one; F32.one; F32.one; F32.one].

(** C3, evaluated on the code: for f = [1,1,1,1] (n = 4, funcInt = 1) and
    u = 0.5, SampleDiscrete returns bin 1 and writes pdf = 1 = f[1]/funcInt,
    whereas f[1]/(n * funcInt) is 0.25, which is also the probability
    cdf[2] - cdf[1] with which the search selects that bin. *)
Theorem C3_SampleDiscrete_pdf_omits_count :
  SampleDiscrete uniform4 (F32.ratio 1 2) = Some (1%Z, F32.one) /\
  funcInt uniform4 = F32.one /\
  count uniform4 = 4%Z /\
  (F32.one / (F32.of_int (count uniform4) * funcInt uniform4))%f32
    = F32.ratio 1 4 /\
  (nth 2 (cdf uniform4) F32.nan - nth 1 (cdf uniform4) F32.nan)%f32
    = F32.ratio 1 4 /\
  F32.one <> F32.ratio 1 4.
Proof.
  repeat split; try (vm_compute; reflexivity).
  vm_compute; discriminate.
Qed.

(** ** Irradiance cache: what priming leaves of the configuration *)

Section IrradiancePreprocess.

Import IrradianceCache.
Context {S : Type} {SO : SpectrumOps S}.
Context {Oct : Type -> Type} {OO : OctreeOps Oct}.

(** The configuration proper: every member but the octree. *)
Definition same_parameters (a b : IrradianceCacheIntegrator (S:=S) (Oct:=Oct))
    : Prop :=
  minSamplePixelSpacing a = minSamplePixelSpacing b /\
  maxSamplePixelSpacing a = maxSamplePixelSpacing b /\
  minWeight a = minWeight b /\
  cosMaxSampleAngleDifference a = cosMaxSampleAngleDifference b /\
  nSamples a = nSamples b /\
  maxSpecularDepth a = maxSpecularDepth b /\
  maxIndirectDepth a = maxIndirectDepth b.

Lemma same_parameters_refl a : same_parameters a a.
Proof. repeat split. Qed.

Lemma same_parameters_trans a b c :
  same_parameters a b -> same_parameters b c -> same_parameters a c.
Proof.
  unfold same_parameters; intros H1 H2.
  decompose [and] H1; decompose [and] H2; repeat split; congruence.
Qed.

Lemma indirectLo_cache_parameters ic q :
  same_parameters (indirectLo_cache ic q) ic.
Proof.
  unfold indirectLo_cache.
  destruct (interpolateE ic (query_p q) (query_ng q));
    destruct (octree ic); repeat split.
Qed.

Lemma priming_parameters queries : forall ic,
  same_parameters (fold_left indirectLo_cache queries ic) ic.
Proof.
  induction queries as [|q qs IH]; intros ic; simpl.
  - apply same_parameters_refl.
  - eapply same_parameters_trans; [apply IH | apply indirectLo_cache_parameters].
Qed.

(** The integrator as the priming tasks see it. *)
Definition primed_under (worldBound : BBox)
    (ic : IrradianceCacheIntegrator (S:=S) (Oct:=Oct))
    : IrradianceCacheIntegrator :=
  set_minWeight (set_octree ic (Some (octree_new (expanded worldBound))))
    (minWeight ic * F32.ratio 3 2)%f32.

Lemma Preprocess_unfold (worldBound : BBox) (queries : list Query)
    (ic : IrradianceCacheIntegrator (S:=S) (Oct:=Oct)) :
  Preprocess worldBound queries ic
  = set_minWeight
      (fold_left indirectLo_cache queries (primed_under worldBound ic))
      (minWeight (fold_left indirectLo_cache queries (primed_under worldBound ic))
       / F32.ratio 3 2)%f32.
Proof. reflexivity. Qed.

Lemma Preprocess_minWeight (worldBound : BBox) (queries : list Query)
    (ic : IrradianceCacheIntegrator (S:=S) (Oct:=Oct)) :
  minWeight (Preprocess worldBound queries ic)
  = ((minWeight ic * F32.ratio 3 2) / F32.ratio 3 2)%f32.
Proof.
  rewrite Preprocess_unfold.
  destruct (priming_parameters queries (primed_under worldBound ic))
    as (_ & _ & H & _).
  cbn [minWeight set_minWeight]. rewrite H. reflexivity.
Qed.

(** C8, as amended: Preprocess runs the priming queries with minWeight
    multiplied by 1.5f and divides the field by 1.5f afterwards, so that
    the field ends as (minWeight * 1.5f) / 1.5f in binary32 arithmetic;
    this is the old value for the default 0.5f; every other parameter of
    the integrator is what it was, and the octree is the one the priming
    queries built under the inflated threshold. *)
Theorem C8_Preprocess_minWeight_and_frame
    (worldBound : BBox) (queries : list Query)
    (ic : IrradianceCacheIntegrator (S:=S) (Oct:=Oct)) :
  let ic' := Preprocess worldBound queries ic in
  minWeight (primed_under worldBound ic) = (minWeight ic * F32.ratio 3 2)%f32 /\
  minWeight ic' = ((minWeight ic * F32.ratio 3 2) / F32.ratio 3 2)%f32 /\
  minWeight (Preprocess worldBound queries (set_minWeight ic (F32.ratio 1 2)))
    = F32.ratio 1 2 /\
  octree ic'
    = octree (fold_left indirectLo_cache queries (primed_under worldBound ic)) /\
  minSamplePixelSpacing ic' = minSamplePixelSpacing ic /\
  maxSamplePixelSpacing ic' = maxSamplePixelSpacing ic /\
  cosMaxSampleAngleDifference ic' = cosMaxSampleAngleDifference ic /\
  nSamples ic' = nSamples ic /\
  maxSpecularDepth ic' = maxSpecularDepth ic /\
  maxIndirectDepth ic' = maxIndirectDepth ic.
Proof.
  intros ic'.
  destruct (priming_parameters queries (primed_under worldBound ic))
    as (H1 & H2 & H3 & H4 & H5 & H6 & H7).
  split; [reflexivity|].
  split; [apply Preprocess_minWeight|].
  split; [rewrite Preprocess_minWeight; vm_compute; reflexivity|].
  subst ic'. rewrite Preprocess_unfold.
  cbn [octree minSamplePixelSpacing maxSamplePixelSpacing
       cosMaxSampleAngleDifference nSamples maxSpecularDepth maxIndirectDepth
       set_minWeight].
  rewrite H1, H2, H4, H5, H6, H7.
  repeat split.
Qed.

End IrradiancePreprocess.

(** An integrator created with [minweight = .9], with the other
    parameters at their defaults (the cosine of ten degrees rounded). *)
Definition ic_minweight_09
    : IrradianceCache.IrradianceCacheIntegrator (S:=RGB) (Oct:=ListOctree) :=
  {| IrradianceCache.minSamplePixelSpacing := F32.ratio 5 2;
     IrradianceCache.maxSamplePixelSpacing := F32.of_int 15;
     IrradianceCache.minWeight := F32.ratio 9 10;
     IrradianceCache.cosMaxSampleAngleDifference := F32.ratio 98480775 100000000;
     IrradianceCache.nSamples := 4096;
     IrradianceCache.maxSpecularDepth := 5;
     IrradianceCache.maxIndirectDepth := 3;
     IrradianceCache.octree := None |}.

(** C8 fails as stated: with minWeight = .9f (mantissa 15099494, exponent
    -24) the product .9f * 1.5f rounds down to an even mantissa and the
    quotient by 1.5f rounds to mantissa 15099493: after Preprocess (here
    with no priming query; the queries do not matter) the field is one
    unit in the last place below its old value. *)
Lemma C8_minWeight_not_restored :
  IrradianceCache.minWeight
    (IrradianceCache.Preprocess BBox0 [] ic_minweight_09)
  = S754_finite false 15099493 (-24) /\
  IrradianceCache.minWeight ic_minweight_09
  = S754_finite false 15099494 (-24) /\
  IrradianceCache.minWeight
    (IrradianceCache.Preprocess BBox0 [] ic_minweight_09)
  <> IrradianceCache.minWeight ic_minweight_09.
Proof.
  rewrite Preprocess_minWeight.
  repeat split; try (vm_compute; reflexivity).
  vm_compute; discriminate.
Qed.

(** ** Dipole subsurface: the cluster hierarchy *)

Section ClusterHierarchy.

Import DipoleSubsurface.
Context {S : Type} {SO : SpectrumOps S}.

Local Abbreviation Node := (SubsurfaceOctreeNode (S:=S)).
Local Abbreviation IPoint := (IrradiancePoint (S:=S)).

(** Induction over a hierarchy, children first. *)
Definition on_child (P : Node -> Prop) (oc : option Node) : Prop :=
  match oc with Some c => P c | None => True end.

Lemma node_induction (P : Node -> Prop) :
  (forall p E a ips, P (Leaf p E a ips)) ->
  (forall p E a children,
      Forall (on_child P) children -> P (Interior p E a children)) ->
  forall n, P n.
Proof.
  intros HL HI.
  fix IH 1.
  intros [p E a ips | p E a children].
  - apply HL.
  - apply HI.
    induction children as [|[c|] cs IHcs]; constructor; simpl; auto.
Qed.

(** The value of the loop counter [i] when a break-at-first-null loop
    over eight slots ends. *)
Definition first_null_index (ips : list (option IPoint)) : nat :=
  match first_null ips with Some i => i | None => 8 end.

(** A leaf array is well formed when its points fill a prefix of the
    eight slots. *)
Definition slots_ok (ips : list (option IPoint)) : Prop :=
  exists pts k, ips = map Some pts ++ repeat None k /\ (length pts + k = 8)%nat.

(** A property of every non-null child. *)
Definition forall_children (P : Node -> Prop) : list (option Node) -> Prop :=
  fix all (cs : list (option Node)) : Prop :=
    match cs with
    | [] => True
    | None :: rest => all rest
    | Some c :: rest => P c /\ all rest
    end.

(** A property of every leaf array of a hierarchy. *)
Fixpoint all_leaves (P : list (option IPoint) -> Prop) (n : Node) : Prop :=
  match n with
  | Leaf _ _ _ ips => P ips
  | Interior _ _ _ children => forall_children (all_leaves P) children
  end.

(** Every interior node has eight child slots. *)
Fixpoint eight_children (n : Node) : Prop :=
  match n with
  | Leaf _ _ _ _ => True
  | Interior _ _ _ children =>
      length children = 8%nat /\ forall_children eight_children children
  end.

Definition well_formed (n : Node) : Prop :=
  all_leaves slots_ok n /\ eight_children n.

(** A property of every node of a hierarchy. *)
Fixpoint all_nodes (P : Node -> Prop) (n : Node) : Prop :=
  P n /\
  match n with
  | Leaf _ _ _ _ => True
  | Interior _ _ _ children => forall_children (all_nodes P) children
  end.

(** A node as its constructor leaves it: [p], [E] and [sumArea] zero. *)
Definition fresh (n : Node) : Prop :=
  node_p n = Point0 /\ node_E n = sp_const F32.zero /\
  node_sumArea n = F32.zero.

(** What insertions build from a new node. *)
Definition built (n : Node) : Prop := well_formed n /\ all_nodes fresh n.

(** The points below the non-null children, in slot order. *)
Definition children_points (pts : Node -> list IPoint)
    : list (option Node) -> list IPoint :=
  fix all (cs : list (option Node)) : list IPoint :=
    match cs with
    | [] => []
    | None :: rest => all rest
    | Some c :: rest => pts c ++ all rest
    end.

(** The points of a hierarchy, in traversal order. *)
Fixpoint points (n : Node) : list IPoint :=
  match n with
  | Leaf _ _ _ ips => non_null ips
  | Interior _ _ _ children => children_points points children
  end.

(** *** Arrays of slots *)

Lemma upd_length {A : Type} (i : nat) (x : A) (l : list A) :
  length (upd i x l) = length l.
Proof.
  revert i; induction l as [|y l IH]; intros [|i]; simpl; auto.
Qed.

Lemma non_null_prefix (pts : list IPoint) (k : nat) :
  non_null (map Some pts ++ repeat None k) = pts.
Proof.
  induction pts as [|ip pts IH]; simpl.
  - induction k; simpl; auto.
  - now rewrite IH.
Qed.

Lemma first_null_prefix (pts : list IPoint) (k : nat) :
  first_null (map Some pts ++ repeat (@None IPoint) k)
  = match k with O => None | Datatypes.S _ => Some (length pts) end.
Proof.
  induction pts as [|ip pts IH]; simpl.
  - destruct k; reflexivity.
  - rewrite IH. destruct k; reflexivity.
Qed.

Lemma upd_prefix (pts : list IPoint) (k : nat) (ip : IPoint) :
  upd (length pts) (Some ip) (map Some pts ++ repeat None (Datatypes.S k))
  = map Some (pts ++ [ip]) ++ repeat None k.
Proof.
  induction pts as [|q pts IH]; cbn [length map app upd].
  - reflexivity.
  - now rewrite IH.
Qed.

Lemma slots_ok_new : slots_ok (repeat None 8).
Proof. exists [], 8%nat. split; reflexivity. Qed.

Lemma slots_ok_length ips : slots_ok ips -> length ips = 8%nat.
Proof.
  intros (pts & k & -> & H).
  now rewrite length_app, length_map, repeat_length.
Qed.

Lemma slots_ok_insert ips i ip :
  slots_ok ips -> first_null ips = Some i ->
  slots_ok (upd i (Some ip) ips) /\
  non_null (upd i (Some ip) ips) = non_null ips ++ [ip].
Proof.
  intros (pts & k & -> & Hlen) Hfn.
  rewrite first_null_prefix in Hfn.
  destruct k as [|k]; [discriminate|].
  injection Hfn as Hi; subst i.
  rewrite upd_prefix, !non_null_prefix.
  split; [|reflexivity].
  exists (pts ++ [ip]), k. split; [reflexivity|].
  rewrite length_app; simpl; lia.
Qed.

Lemma slots_ok_full ips :
  slots_ok ips -> first_null ips = None ->
  ips = map Some (non_null ips) /\ length (non_null ips) = 8%nat.
Proof.
  intros (pts & k & -> & Hlen) Hfn.
  rewrite first_null_prefix in Hfn.
  destruct k as [|k]; [|discriminate].
  rewrite non_null_prefix. simpl. rewrite app_nil_r.
  split; [reflexivity | lia].
Qed.

(** The claim's wording of a filled prefix. *)
Lemma slots_ok_prefix ips :
  slots_ok ips ->
  forall i j, (i <= j < 8)%nat ->
    nth i ips None = None -> nth j ips None = None.
Proof.
  intros (pts & k & -> & Hlen) i j Hij Hi.
  destruct (Nat.lt_ge_cases i (length pts)) as [Hlt|Hge].
  - rewrite app_nth1 in Hi by now rewrite length_map.
    rewrite (nth_indep _ None (Some (hd (mkIrradiancePoint Point0
               (mkNormal F32.zero F32.zero F32.zero) (sp_const F32.zero)
               F32.zero F32.zero) pts))) in Hi by now rewrite length_map.
    rewrite map_nth in Hi. discriminate.
  - rewrite app_nth2 by (rewrite length_map; lia).
    destruct (Nat.lt_ge_cases (j - length (map Some pts)) k) as [Hjk|Hjk].
    + now rewrite nth_repeat_lt.
    + apply nth_overflow. now rewrite repeat_length.
Qed.

(** The break-at-first-null loops visit exactly the non_null points. *)
Lemma leaf_Mo_non_null Rd pt (pts : list IPoint) k : forall acc,
  leaf_Mo Rd pt (map Some pts ++ repeat None k) acc
  = fold_left
      (fun m ip => sp_add m (term Rd pt (ip_p ip) (ip_E ip) (ip_area ip)))
      pts acc.
Proof.
  induction pts as [|ip pts IH]; intros acc; simpl.
  - destruct k; reflexivity.
  - apply IH.
Qed.

Lemma leaf_loop_non_null (pts : list IPoint) k : forall a,
  leaf_loop (map Some pts ++ repeat None k) a
  = fold_left
      (fun a ip => accumulate a (ip_E ip) (ip_p ip) (ip_area ip)) pts a.
Proof.
  induction pts as [|ip pts IH]; intros a; simpl.
  - destruct k; reflexivity.
  - apply IH.
Qed.

Lemma leaf_loop_count (pts : list IPoint) : forall a,
  sum_n (fold_left
           (fun a ip => accumulate a (ip_E ip) (ip_p ip) (ip_area ip)) pts a)
  = (sum_n a + length pts)%nat.
Proof.
  induction pts as [|ip pts IH]; intros a; simpl.
  - lia.
  - rewrite IH. simpl. lia.
Qed.

Lemma first_null_index_non_null ips :
  slots_ok ips -> first_null_index ips = length (non_null ips).
Proof.
  intros (pts & k & -> & Hlen).
  unfold first_null_index.
  rewrite first_null_prefix, non_null_prefix.
  destruct k; lia.
Qed.

(** *** Insertion keeps the hierarchy well formed and adds one point *)

Lemma forall_children_and (P Q : Node -> Prop) cs :
  forall_children (fun c => P c /\ Q c) cs
  <-> forall_children P cs /\ forall_children Q cs.
Proof.
  induction cs as [|[c|] cs IH]; simpl; tauto.
Qed.

Lemma built_interior p E a children :
  built (Interior p E a children)
  <-> fresh (Interior p E a children) /\ length children = 8%nat /\
      forall_children built children.
Proof.
  unfold built, well_formed; simpl.
  fold (built). unfold built, well_formed.
  rewrite !forall_children_and. tauto.
Qed.

Lemma forall_children_repeat_None (P : Node -> Prop) k :
  forall_children P (repeat None k).
Proof. induction k; simpl; auto. Qed.

Lemma children_points_repeat_None k :
  children_points points (repeat (@None Node) k) = [].
Proof. induction k; simpl; auto. Qed.

Lemma built_new : built Node_new.
Proof.
  split; [split; simpl; [apply slots_ok_new | exact I]|].
  simpl. repeat split.
Qed.

Lemma points_new : points Node_new = [].
Proof. reflexivity. Qed.

Lemma octant_lt_8 (p pMid : Point) : (octant p pMid < 8)%nat.
Proof.
  unfold octant.
  destruct (F32.gtb (px p) (px pMid)), (F32.gtb (py p) (py pMid)),
    (F32.gtb (pz p) (pz pMid)); simpl; lia.
Qed.

(** The child that an insertion descends into: the one in the slot, or a
    fresh one. *)
Definition child_or_new (children : list (option Node)) (child : nat) : Node :=
  match nth child children None with Some c => c | None => Node_new end.

Lemma child_or_new_ok children child :
  forall_children built children -> built (child_or_new children child).
Proof.
  unfold child_or_new.
  revert child; induction children as [|[c|] cs IH]; intros [|i] H; simpl in *;
    try apply built_new; try tauto; try (apply IH; tauto).
Qed.

Lemma forall_children_upd (P : Node -> Prop) cs i c :
  forall_children P cs -> P c -> forall_children P (upd i (Some c) cs).
Proof.
  revert i; induction cs as [|[d|] cs IH]; intros [|i] H Hc; simpl in *;
    try tauto; try (split; [tauto|apply IH; tauto]); try (apply IH; tauto).
Qed.

Lemma children_points_upd cs : forall i c' (ip : IPoint),
  (i < length cs)%nat ->
  Permutation (points c') (ip :: points (child_or_new cs i)) ->
  Permutation (children_points points (upd i (Some c') cs))
              (ip :: children_points points cs).
Proof.
  unfold child_or_new.
  induction cs as [|oc cs IH]; intros [|i] c' ip Hi Hp; simpl in *; try lia.
  - destruct oc as [c|]; simpl in *.
    + apply (Permutation_app_tail (children_points points cs)) in Hp.
      exact Hp.
    + apply (Permutation_app_tail (children_points points cs)) in Hp.
      exact Hp.
  - assert (Hi' : (i < length cs)%nat) by lia.
    specialize (IH i c' ip Hi' Hp).
    destruct oc as [c|]; simpl.
    + rewrite IH. symmetry. apply Permutation_middle.
    + exact IH.
Qed.

(** What the recursive call is assumed to do, and what [Insert] does. *)
Definition inserts
    (insert : BBox -> Node -> IPoint -> option Node) : Prop :=
  forall b n ip n',
    built n -> insert b n ip = Some n' ->
    built n' /\ Permutation (points n') (ip :: points n).

Lemma insert_child_inserts insert b pMid cs ip cs' :
  inserts insert ->
  length cs = 8%nat -> forall_children built cs ->
  insert_child insert b pMid cs ip = Some cs' ->
  length cs' = 8%nat /\ forall_children built cs' /\
  Permutation (children_points points cs') (ip :: children_points points cs).
Proof.
  intros Hins Hlen Hok. unfold insert_child.
  fold (child_or_new cs (octant (ip_p ip) pMid)).
  destruct (insert _ _ ip) as [c'|] eqn:Hc; simpl; [|discriminate].
  intros H; injection H as <-.
  apply Hins in Hc; [|now apply child_or_new_ok].
  destruct Hc as [Hok' Hperm].
  split; [now rewrite upd_length|].
  split; [now apply forall_children_upd|].
  apply children_points_upd; [|exact Hperm].
  rewrite Hlen. apply octant_lt_8.
Qed.

Lemma redistribute_inserts insert b pMid (pts : list IPoint) : forall cs cs',
  inserts insert ->
  length cs = 8%nat -> forall_children built cs ->
  redistribute insert b pMid (map Some pts) cs = Some cs' ->
  length cs' = 8%nat /\ forall_children built cs' /\
  Permutation (children_points points cs')
              (pts ++ children_points points cs).
Proof.
  induction pts as [|ip pts IH]; intros cs cs' Hins Hlen Hok; simpl.
  - intros H; injection H as <-. auto.
  - destruct (insert_child insert b pMid cs ip) as [cs1|] eqn:H1; simpl;
      [|discriminate].
    intros H2.
    eapply insert_child_inserts in H1; [|exact Hins|exact Hlen|exact Hok].
    destruct H1 as (Hlen1 & Hok1 & Hp1).
    destruct (IH _ _ Hins Hlen1 Hok1 H2) as (Hlen2 & Hok2 & Hp2).
    split; [exact Hlen2|]. split; [exact Hok2|].
    rewrite Hp2, Hp1. symmetry. apply Permutation_middle.
Qed.

Lemma Insert_inserts fuel : inserts (Insert fuel).
Proof.
  induction fuel as [|fuel IH]; intros b n ip n' Hok; [discriminate|].
  cbn [Insert].
  destruct n as [p E a ips | p E a children].
  - destruct Hok as [[Hslots _] Hfresh]; simpl in Hslots.
    destruct (first_null ips) as [i|] eqn:Hfn.
    + intros H; injection H as <-.
      destruct (slots_ok_insert ip Hslots Hfn) as [Hs Hst].
      split; [split; [split; simpl; auto | exact Hfresh]|].
      simpl. rewrite Hst. symmetry. apply Permutation_cons_append.
    + destruct (slots_ok_full Hslots Hfn) as [Hips Hlen].
      rewrite Hips at 1.
      destruct (redistribute (Insert fuel) b (midpoint b) (map Some (non_null ips))
                  (repeat None 8)) as [cs1|] eqn:H1; cbn [obind];
        [|discriminate].
      destruct (insert_child (Insert fuel) b (midpoint b) cs1 ip)
        as [cs2|] eqn:H2; cbn [obind]; [|discriminate].
      intros H; injection H as <-.
      eapply redistribute_inserts in H1;
        [|exact IH|apply repeat_length|apply forall_children_repeat_None].
      destruct H1 as (Hlen1 & Hok1 & Hp1).
      eapply insert_child_inserts in H2; [|exact IH|exact Hlen1|exact Hok1].
      destruct H2 as (Hlen2 & Hok2 & Hp2).
      split; [apply built_interior; repeat split; auto; apply Hfresh|].
      cbn [points]. rewrite Hp2, Hp1, children_points_repeat_None, app_nil_r.
      reflexivity.
  - apply built_interior in Hok. destruct Hok as (Hfresh & Hlen & Hok).
    destruct (insert_child (Insert fuel) b (midpoint b) children ip)
      as [cs2|] eqn:H2; cbn [obind]; [|discriminate].
    intros H; injection H as <-.
    eapply insert_child_inserts in H2; [|exact IH|exact Hlen|exact Hok].
    destruct H2 as (Hlen2 & Hok2 & Hp2).
    split; [apply built_interior; repeat split; auto; apply Hfresh|exact Hp2].
Qed.

(** The points that the insertion loop of [Preprocess] inserts. *)
Definition inserted (ips : list IPoint) : list IPoint :=
  filter (fun ip => F32.gtb (sp_y (ip_E ip)) F32.zero) ips.

Lemma insert_all_inserts fuel bounds (ips : list IPoint) : forall root root',
  built root ->
  insert_all fuel bounds ips root = Some root' ->
  built root' /\ Permutation (points root') (inserted ips ++ points root).
Proof.
  induction ips as [|ip ips IH]; intros root root' Hok; simpl.
  - intros H; injection H as <-. auto.
  - destruct (F32.gtb (sp_y (ip_E ip)) F32.zero).
    + destruct (Insert fuel bounds root ip) as [r1|] eqn:H1; simpl;
        [|discriminate].
      intros H2.
      apply Insert_inserts in H1; [|exact Hok].
      destruct H1 as [Hok1 Hp1].
      destruct (IH _ _ Hok1 H2) as [Hok2 Hp2].
      split; [exact Hok2|].
      rewrite Hp2, Hp1. simpl. symmetry. apply Permutation_middle.
    + apply IH; exact Hok.
Qed.


(** *** InitHierarchy *)

Lemma forall_children_map (f : Node -> Node) (A B : Node -> Prop) cs :
  Forall (on_child (fun c => A c -> B (f c))) cs ->
  forall_children A cs ->
  forall_children B (map (option_map f) cs).
Proof.
  induction 1 as [|[c|] cs Hc _ IH]; simpl; intros HA; auto.
  destruct HA as [HA1 HA2]. split; [apply Hc; exact HA1 | apply IH; exact HA2].
Qed.

Lemma all_leaves_InitHierarchy (P : list (option IPoint) -> Prop) n :
  all_leaves P n -> all_leaves P (InitHierarchy n).
Proof.
  induction n as [p E a ips | p E a children IH] using node_induction; simpl.
  - auto.
  - apply forall_children_map. exact IH.
Qed.

Lemma eight_children_InitHierarchy n :
  eight_children n -> eight_children (InitHierarchy n).
Proof.
  induction n as [p E a ips | p E a children IH] using node_induction; simpl.
  - auto.
  - intros [Hlen H]. split; [now rewrite length_map|].
    revert H. apply forall_children_map. exact IH.
Qed.

Lemma points_InitHierarchy n : points (InitHierarchy n) = points n.
Proof.
  induction n as [p E a ips | p E a children IH] using node_induction; simpl.
  - reflexivity.
  - induction IH as [|[c|] cs Hc _ IHcs]; simpl; auto.
    simpl in Hc. now rewrite Hc, IHcs.
Qed.

(** The sums that the claim speaks of, accumulated from zero in slot
    order as the loops do. *)
Definition sum_floats (l : list float) : float := fold_left F32.add l F32.zero.

Definition sum_spectra (l : list S) : S := fold_left sp_add l (sp_const F32.zero).

Definition mean_spectrum (l : list S) : S :=
  sp_div (sum_spectra l) (F32.of_int (Z.of_nat (length l))).

Definition luminance_sum (l : list (S * Point)) : float :=
  fold_left (fun w eq => (w + sp_y (fst eq))%f32) l F32.zero.

Definition weighted_positions (l : list (S * Point)) : Point :=
  fold_left (fun p eq => Point_add p (Point_scale (sp_y (fst eq)) (snd eq)))
    l Point0.

(** The centroid: divided by the luminance sum only when that sum is
    positive. *)
Definition luminance_centroid (l : list (S * Point)) : Point :=
  if F32.gtb (luminance_sum l) F32.zero
  then Point_div (weighted_positions l) (luminance_sum l)
  else weighted_positions l.

(** The aggregate of a node in terms of what lies directly below it. *)
Definition initialised (n : Node) : Prop :=
  match n with
  | Leaf p E sumArea ips =>
      let pts := non_null ips in
      sumArea = sum_floats (map (@ip_area S) pts) /\
      E = mean_spectrum (map (@ip_E S) pts) /\
      p = luminance_centroid (map (fun ip => (ip_E ip, ip_p ip)) pts)
  | Interior p E sumArea children =>
      let kids := non_null children in
      sumArea = sum_floats (map node_sumArea kids) /\
      E = mean_spectrum (map node_E kids) /\
      p = luminance_centroid (map (fun c => (node_E c, node_p c)) kids)
  end.

Lemma accumulate_fold {X : Type} (fE : X -> S) (fP : X -> Point)
    (fA : X -> float) (l : list X) : forall a,
  fold_left (fun a x => accumulate a (fE x) (fP x) (fA x)) l a
  = {| sum_E := fold_left sp_add (map fE l) (sum_E a);
       sum_p := fold_left
                  (fun p eq => Point_add p (Point_scale (sp_y (fst eq)) (snd eq)))
                  (map (fun x => (fE x, fP x)) l) (sum_p a);
       sum_Wt := fold_left (fun w eq => (w + sp_y (fst eq))%f32)
                   (map (fun x => (fE x, fP x)) l) (sum_Wt a);
       sum_Area := fold_left F32.add (map fA l) (sum_Area a);
       sum_n := (sum_n a + length l)%nat |}.
Proof.
  induction l as [|x l IH]; intros a; simpl.
  - destruct a; simpl. now rewrite Nat.add_0_r.
  - rewrite IH. simpl. f_equal. lia.
Qed.

Lemma interior_loop_kids (cs : list (option Node)) : forall a,
  interior_loop cs a
  = fold_left (fun a c => accumulate a (node_E c) (node_p c) (node_sumArea c))
      (non_null cs) a.
Proof.
  induction cs as [|[c|] cs IH]; intros a; simpl; auto.
Qed.

Lemma leaf_loop_slots ips a :
  slots_ok ips ->
  leaf_loop ips a
  = fold_left (fun a ip => accumulate a (ip_E ip) (ip_p ip) (ip_area ip))
      (non_null ips) a.
Proof.
  intros (pts & k & -> & _).
  now rewrite leaf_loop_non_null, non_null_prefix.
Qed.

Lemma initialised_from_sums {X : Type} (fE : X -> S) (fP : X -> Point)
    (fA : X -> float) (l : list X) :
  let a := fold_left (fun a x => accumulate a (fE x) (fP x) (fA x)) l
             (mkSums (sp_const F32.zero) Point0 F32.zero F32.zero 0) in
  sum_Area a = sum_floats (map fA l) /\
  mean_E a = mean_spectrum (map fE l) /\
  centroid a = luminance_centroid (map (fun x => (fE x, fP x)) l).
Proof.
  intros a. subst a. rewrite accumulate_fold.
  unfold mean_E, centroid, mean_spectrum, luminance_centroid, sum_floats,
    sum_spectra, luminance_sum, weighted_positions; simpl.
  now rewrite length_map.
Qed.

Lemma InitHierarchy_initialised n :
  all_nodes fresh n -> all_leaves slots_ok n ->
  all_nodes initialised (InitHierarchy n).
Proof.
  induction n as [p E a ips | p E a children IH] using node_induction;
    intros [(Hp & HE & Ha) Hfresh] Hslots; simpl in *; subst.
  - split; [|exact I].
    rewrite leaf_loop_slots by exact Hslots.
    apply (initialised_from_sums (@ip_E S) (@ip_p S) (@ip_area S)).
  - split.
    + rewrite interior_loop_kids.
      apply (initialised_from_sums node_E node_p node_sumArea).
    + assert (H : forall_children
                    (fun c => all_nodes fresh c /\ all_leaves slots_ok c)
                    children)
        by (apply forall_children_and; split; assumption).
      revert H. apply forall_children_map.
      eapply Forall_impl; [|exact IH].
      intros [c|]; simpl; [|auto]. intros Hc [H1 H2]. auto.
Qed.


Lemma all_leaves_impl (P Q : list (option IPoint) -> Prop) n :
  (forall l, P l -> Q l) -> all_leaves P n -> all_leaves Q n.
Proof.
  intros HPQ.
  induction n as [p E a ips | p E a children IH] using node_induction; simpl.
  - apply HPQ.
  - induction IH as [|[c|] cs Hc _ IHcs]; simpl; auto.
    intros [H1 H2]. split; auto.
Qed.

Lemma leaf_Mo_slots Rd pt ips acc :
  slots_ok ips ->
  leaf_Mo Rd pt ips acc
  = fold_left
      (fun m ip => sp_add m (term Rd pt (ip_p ip) (ip_E ip) (ip_area ip)))
      (non_null ips) acc.
Proof.
  intros (pts & k & -> & _).
  now rewrite leaf_Mo_non_null, non_null_prefix.
Qed.

Lemma insert_all_built fuel bounds (ips : list IPoint) root :
  insert_all fuel bounds ips Node_new = Some root ->
  built root /\ Permutation (points root) (inserted ips).
Proof.
  intros H. apply insert_all_inserts in H; [|apply built_new].
  destruct H as [Hb Hp]. split; [exact Hb|].
  now rewrite points_new, app_nil_r in Hp.
Qed.

(** What C9 says of one leaf array: eight slots, nothing after the first
    null, the first-null index is the number of points, and the two
    break-at-first-null loops run over exactly the points of the array. *)
Definition prefix_filled (slots : list (option IPoint)) : Prop :=
  length slots = 8%nat /\
  (forall i j, (i <= j < 8)%nat ->
     nth i slots None = None -> nth j slots None = None) /\
  first_null_index slots = length (non_null slots) /\
  (forall a,
     leaf_loop slots a
     = fold_left (fun a ip => accumulate a (ip_E ip) (ip_p ip) (ip_area ip))
         (non_null slots) a) /\
  (forall Rd pt acc,
     leaf_Mo Rd pt slots acc
     = fold_left
         (fun m ip => sp_add m (term Rd pt (ip_p ip) (ip_E ip) (ip_area ip)))
         (non_null slots) acc).

Lemma slots_ok_prefix_filled slots : slots_ok slots -> prefix_filled slots.
Proof.
  intros H. split; [now apply slots_ok_length|].
  split; [now apply slots_ok_prefix|].
  split; [now apply first_null_index_non_null|].
  split; intros.
  - now apply leaf_loop_slots.
  - now apply leaf_Mo_slots.
Qed.

(** C9: in the hierarchy that the insertion loop of Preprocess builds
    from a new node, before and after InitHierarchy, the points of every
    leaf fill a prefix of its eight slots (a null slot is followed by
    null slots only), so that the loops of InitHierarchy and Mo, which
    break at the first null slot, visit exactly the stored points, and
    the index of the first null slot is the number of stored points. *)
Theorem C9_leaf_points_fill_a_prefix
    (fuel : nat) (bounds : BBox) (ips : list IPoint) (root : Node) :
  insert_all fuel bounds ips Node_new = Some root ->
  all_leaves prefix_filled root /\
  all_leaves prefix_filled (InitHierarchy root).
Proof.
  intros H. apply insert_all_built in H. destruct H as [[[Hs _] _] _].
  assert (Hp : all_leaves prefix_filled root)
    by (revert Hs; apply all_leaves_impl; apply slots_ok_prefix_filled).
  split; [exact Hp | now apply all_leaves_InitHierarchy].
Qed.

(** C5: after InitHierarchy on the hierarchy that Preprocess builds,
    every leaf has sumArea equal to the sum of the areas of its stored
    points and E equal to the sum of their E divided by their number;
    every interior node has sumArea equal to the sum of the sumArea of
    its non-null children and E equal to the sum of their E divided by
    their number; and the luminance-weighted position sum p of either is
    divided by the sum of the luminances only when that sum is positive.
    All sums start from zero and run in slot order. *)
Theorem C5_InitHierarchy_aggregates
    (fuel : nat) (bounds : BBox) (ips : list IPoint) (root : Node) :
  insert_all fuel bounds ips Node_new = Some root ->
  all_nodes initialised (InitHierarchy root).
Proof.
  intros H. apply insert_all_built in H. destruct H as [[[Hs _] Hf] _].
  now apply InitHierarchy_initialised.
Qed.


(** *** Mo without the cluster approximation *)

(** The term of one irradiance point, and the brute-force loop
    [Mo += Rd(DistanceSquared(pt, ip.p)) * ip.E * ip.area] over a list of
    points. *)
Definition point_term (Rd : DiffusionReflectance) (pt : Point) (ip : IPoint) : S :=
  term Rd pt (ip_p ip) (ip_E ip) (ip_area ip).

Definition brute_force (Rd : DiffusionReflectance) (pt : Point)
    (pts : list IPoint) : S :=
  fold_left (fun m ip => sp_add m (point_term Rd pt ip)) pts (sp_const F32.zero).

(** The area of a point has its sign bit clear (it is computed as
    [M_PI * minSampleDist * minSampleDist]). *)
Definition area_not_negative (ip : IPoint) : Prop :=
  F32.nonneg_or_nan (ip_area ip) = true.

Definition sumArea_not_negative (n : Node) : Prop :=
  F32.nonneg_or_nan (node_sumArea n) = true.

Lemma sum_floats_nonneg (l : list float) : forall acc,
  F32.nonneg_or_nan acc = true ->
  Forall (fun x => F32.nonneg_or_nan x = true) l ->
  F32.nonneg_or_nan (fold_left F32.add l acc) = true.
Proof.
  induction l as [|x l IH]; intros acc Hacc Hl; simpl; [exact Hacc|].
  inversion Hl; subst. apply IH; [|assumption].
  now apply add_nonneg.
Qed.

Lemma Forall_children_points (P : IPoint -> Prop) cs :
  Forall P (children_points points cs) ->
  forall_children (fun c => Forall P (points c)) cs.
Proof.
  induction cs as [|[c|] cs IH]; simpl; auto.
  intros H. apply Forall_app in H. destruct H. split; auto.
Qed.

Lemma all_nodes_here (P : Node -> Prop) n : all_nodes P n -> P n.
Proof. destruct n; simpl; tauto. Qed.

Lemma initialised_sumArea_not_negative n :
  all_nodes initialised n -> Forall area_not_negative (points n) ->
  all_nodes sumArea_not_negative n.
Proof.
  induction n as [p E a ips | p E a children IH] using node_induction;
    simpl; intros [(Ha & _) Hch] Hpts; simpl in *.
  - split; [|exact I]. unfold sumArea_not_negative; simpl. subst a.
    apply sum_floats_nonneg; [reflexivity|].
    apply Forall_map. exact Hpts.
  - apply Forall_children_points in Hpts.
    assert (Hkids : forall_children (all_nodes sumArea_not_negative) children).
    { clear Ha. induction IH as [|[c|] cs Hc _ IHcs]; simpl in *; auto.
      destruct Hch, Hpts. split; auto. }
    split; [|exact Hkids].
    unfold sumArea_not_negative; simpl. subst a.
    apply sum_floats_nonneg; [reflexivity|].
    apply Forall_map. clear - Hkids.
    induction children as [|[c|] cs IHcs]; simpl in *; auto.
    destruct Hkids as [Hc Hcs]. constructor; auto.
    apply (all_nodes_here sumArea_not_negative c Hc).
Qed.

(** With a zero threshold the acceptance test of [Mo] is false. *)
Lemma zero_error_rejects n (nodeBound : BBox) (pt : Point) :
  sumArea_not_negative n ->
  ((node_sumArea n / DistanceSquared pt (node_p n) <? F32.zero)%f32
   && negb (Inside nodeBound pt)) = false.
Proof.
  intros H. rewrite nonneg_not_lt_zero; [reflexivity|].
  apply div_nonneg; [exact H | apply DistanceSquared_nonneg].
Qed.

Section ExactSums.

(** Exact arithmetic on spectra: addition is associative and commutative
    and the zero spectrum is its unit. *)
Hypothesis sp_add_assoc : forall a b c : S,
  sp_add (sp_add a b) c = sp_add a (sp_add b c).
Hypothesis sp_add_comm : forall a b : S, sp_add a b = sp_add b a.
Hypothesis sp_add_zero : forall a : S, sp_add (sp_const F32.zero) a = a.

Lemma fold_terms_from Rd pt (l : list IPoint) : forall acc,
  fold_left (fun m ip => sp_add m (point_term Rd pt ip)) l acc
  = sp_add acc (brute_force Rd pt l).
Proof.
  unfold brute_force.
  induction l as [|x l IH]; intros acc; simpl.
  - now rewrite sp_add_comm, sp_add_zero.
  - rewrite IH, (IH (sp_add _ _)), sp_add_zero, sp_add_assoc. reflexivity.
Qed.

Lemma brute_force_app Rd pt (l1 l2 : list IPoint) :
  brute_force Rd pt (l1 ++ l2)
  = sp_add (brute_force Rd pt l1) (brute_force Rd pt l2).
Proof.
  unfold brute_force at 1. rewrite fold_left_app.
  fold (brute_force Rd pt l1). apply fold_terms_from.
Qed.

Lemma brute_force_Permutation Rd pt (l1 l2 : list IPoint) :
  Permutation l1 l2 -> brute_force Rd pt l1 = brute_force Rd pt l2.
Proof.
  unfold brute_force. generalize (sp_const F32.zero).
  intros acc H; revert acc.
  induction H as [|x l1 l2 _ IH|x y l|l1 l2 l3 _ IH1 _ IH2]; intros acc; simpl.
  - reflexivity.
  - apply IH.
  - f_equal.
    rewrite !sp_add_assoc. f_equal. apply sp_add_comm.
  - now rewrite IH1.
Qed.

Lemma visit_children_sum Rd pt (mo : Node -> nat -> S) cs :
  forall_children (fun c => forall child, mo c child = brute_force Rd pt (points c))
    cs ->
  forall child acc,
    visit_children mo cs child acc
    = sp_add acc (brute_force Rd pt (children_points points cs)).
Proof.
  induction cs as [|[c|] cs IH]; simpl; intros H child acc.
  - unfold brute_force; simpl. now rewrite sp_add_comm, sp_add_zero.
  - destruct H as [Hc Hcs].
    rewrite IH by exact Hcs.
    rewrite Hc, brute_force_app, sp_add_assoc. reflexivity.
  - apply IH; exact H.
Qed.

Lemma Mo_zero_error Rd pt n : forall nodeBound,
  all_nodes sumArea_not_negative n -> all_leaves slots_ok n ->
  Mo n nodeBound pt Rd F32.zero = brute_force Rd pt (points n).
Proof.
  induction n as [p E a ips | p E a children IH] using node_induction;
    intros nodeBound Hall Hslots; destruct Hall as [Ha Hch].
  - cbn [Mo]. rewrite zero_error_rejects by exact Ha.
    simpl in Hslots. rewrite leaf_Mo_slots by exact Hslots. reflexivity.
  - cbn [Mo]. rewrite zero_error_rejects by exact Ha.
    rewrite (visit_children_sum Rd pt).
    + apply sp_add_zero.
    + simpl in Hch, Hslots. clear Ha.
      induction IH as [|[c|] cs Hc _ IHcs]; simpl in *; auto.
      destruct Hch, Hslots. split; auto.
Qed.


End ExactSums.


End ClusterHierarchy.

(** ** The cluster hierarchy on a concrete point cloud *)

Lemma C9_leaf_points_fill_a_prefix_witness :
  exists root,
    DipoleSubsurface.insert_all 3 cube8 (cloud grey) DipoleSubsurface.Node_new
    = Some root /\
    (all_leaves prefix_filled root /\
     all_leaves prefix_filled (DipoleSubsurface.InitHierarchy root)).
Proof.
  eexists. split.
  - vm_compute; reflexivity.
  - apply (C9_leaf_points_fill_a_prefix (S:=RGB) 3 cube8 (cloud grey)).
    vm_compute; reflexivity.
Defined.

Lemma C5_InitHierarchy_aggregates_witness :
  exists root,
    DipoleSubsurface.insert_all 3 cube8 (cloud grey) DipoleSubsurface.Node_new
    = Some root /\
    all_nodes initialised (DipoleSubsurface.InitHierarchy root).
Proof.
  eexists. split.
  - vm_compute; reflexivity.
  - apply (C5_InitHierarchy_aggregates (S:=RGB) 3 cube8 (cloud grey)).
    vm_compute; reflexivity.
Defined.


(** ** Dipole subsurface: the point-generation tasks *)

Section PointTasks.

Import DipoleSubsurface.
Context {S : Type} {SO : SpectrumOps S}.
Context {Oct : Type -> Type} {OO : OctreeOps Oct}.

Local Abbreviation Shared := (Shared (S:=S) (Oct:=Oct)).
Local Abbreviation Batch := (Batch (S:=S)).
Local Abbreviation Tasks := (Tasks (S:=S) (Oct:=Oct)).

Variables (maxFails : Z) (msd : float).

(** The two conditions under which a task returns, on the shared
    variables as a round leaves them. *)
Definition fails_reached (st : Shared) : Prop := (maxFails <= repeatedFails st)%Z.

Definition nothing_deposited (st : Shared) : Prop :=
  (totalPathsTraced st > 50000)%Z /\ numPointsAdded st = 0%Z.

(** *** One round *)

Lemma second_pass_returned cands : forall (st st' : Shared),
  second_pass maxFails msd cands st = (st', true) -> fails_reached st'.
Proof.
  induction cands as [|[ip r] cands IH]; intros st st'; cbn [second_pass].
  - discriminate.
  - destruct (r || check_failed msd (pointOctree st) ip).
    + destruct (repeatedFails (reject st) >=? maxFails)%Z eqn:Hge.
      * intros H; injection H as <-. unfold fails_reached. lia.
      * apply IH.
    + apply IH.
Qed.

Lemma second_pass_continues cands : forall (st st' : Shared),
  (0 < maxFails)%Z -> (repeatedFails st < maxFails)%Z ->
  second_pass maxFails msd cands st = (st', false) ->
  (repeatedFails st' < maxFails)%Z.
Proof.
  induction cands as [|[ip r] cands IH]; intros st st' Hpos Hlt;
    cbn [second_pass].
  - intros H; injection H as <-. exact Hlt.
  - destruct (r || check_failed msd (pointOctree st) ip).
    + destruct (repeatedFails (reject st) >=? maxFails)%Z eqn:Hge.
      * discriminate.
      * apply IH; [exact Hpos | lia].
    + apply IH; [exact Hpos | simpl; lia].
Qed.

(** The exits of a round: it returns on entry when the counter has
    reached [maxFails]; otherwise it returns exactly when, at its end,
    the counter has reached [maxFails] (after a rejected candidate) or
    more than 50000 paths were traced with no point deposited. *)
Lemma write_section_exits (b : Batch) (flags : list bool) (st : Shared) :
  (0 < maxFails)%Z ->
  let st' := fst (write_section maxFails msd b flags st) in
  let out := snd (write_section maxFails msd b flags st) in
  (fails_reached st -> st' = st /\ out = ReturnMaxFails) /\
  (out = ReturnMaxFails <-> fails_reached st') /\
  (out = ReturnNoBSSRDF <-> ~ fails_reached st' /\ nothing_deposited st') /\
  (out = Continue <-> ~ fails_reached st' /\ ~ nothing_deposited st').
Proof.
  intros Hpos. unfold write_section, fails_reached, nothing_deposited.
  destruct (repeatedFails st >=? maxFails)%Z eqn:Hentry; cbn [fst snd].
  - repeat split; intros; try discriminate; try lia; tauto.
  - match goal with
    | |- context [second_pass maxFails msd ?c ?s] =>
        destruct (second_pass maxFails msd c s) as [st2 [|]] eqn:Hpass
    end; cbn [fst snd].
    + apply second_pass_returned in Hpass. unfold fails_reached in Hpass.
      repeat split; intros; try discriminate; try lia; tauto.
    + apply second_pass_continues in Hpass; [|exact Hpos|simpl; lia].
      destruct ((totalPathsTraced st2 >? 50000)%Z && (numPointsAdded st2 =? 0)%Z)
        eqn:Hgive; cbn [fst snd].
      * apply andb_true_iff in Hgive. destruct Hgive as [H1 H2].
        repeat split; intros; try discriminate; try lia; try tauto.
      * apply andb_false_iff in Hgive.
        repeat split; intros; try discriminate; try lia; try tauto.
Qed.

(** A round without candidates. *)
Lemma write_section_no_candidates (b : Batch) (flags : list bool) (st : Shared) :
  candidates b = [] ->
  (repeatedFails st < maxFails)%Z ->
  write_section maxFails msd b flags st
  = ({| repeatedFails := repeatedFails st;
        maxRepeatedFails := maxRepeatedFails st;
        totalPathsTraced := totalPathsTraced st + pathsTraced;
        totalRaysTraced := totalRaysTraced st + raysTraced b;
        numPointsAdded := numPointsAdded st;
        pointOctree := pointOctree st;
        irradiancePoints := irradiancePoints st |},
     if (totalPathsTraced st + pathsTraced >? 50000)%Z
        && (numPointsAdded st =? 0)%Z
     then ReturnNoBSSRDF else Continue).
Proof.
  intros Hc Hlt. unfold write_section. rewrite Hc.
  destruct (repeatedFails st >=? maxFails)%Z eqn:Hge; [lia|].
  cbn [combine second_pass totalPathsTraced numPointsAdded].
  destruct ((totalPathsTraced st + pathsTraced >? 50000)%Z
            && (numPointsAdded st =? 0)%Z); reflexivity.
Qed.

(** *** The loop of a task that runs alone *)

Lemma Run_returns (trace : nat -> Batch) (fuel : nat) :
  (0 < maxFails)%Z ->
  forall k (st st' : Shared) out,
    Run fuel maxFails msd trace k st = Some (st', out) ->
    out <> Continue /\ (fails_reached st' \/ nothing_deposited st').
Proof.
  intros Hpos. induction fuel as [|fuel IH]; intros k st st' out; simpl;
    [discriminate|].
  pose proof (write_section_exits (trace k)
                (read_pass msd (pointOctree st) (candidates (trace k))) st Hpos)
    as (_ & H1 & H2 & _).
  destruct (write_section maxFails msd (trace k)
              (read_pass msd (pointOctree st) (candidates (trace k))) st)
    as [st1 [| |]]; cbn [fst snd] in *.
  - apply IH.
  - intros H; injection H as <- <-. split; [discriminate|].
    left. now apply H1.
  - intros H; injection H as <- <-. split; [discriminate|].
    right. now apply H2.
Qed.

(** Once a point is deposited, rounds without candidates change neither
    exit condition: the loop goes on for ever. *)
Lemma Run_loops_without_candidates (trace : nat -> Batch) (fuel : nat) :
  forall k (st : Shared),
    (forall j, (k <= j)%nat -> candidates (trace j) = []) ->
    (repeatedFails st < maxFails)%Z ->
    (0 < numPointsAdded st)%Z ->
    Run fuel maxFails msd trace k st = None.
Proof.
  induction fuel as [|fuel IH]; intros k st Hc Hlt Hn; simpl; [reflexivity|].
  rewrite write_section_no_candidates by (auto; apply Hc; lia).
  replace (numPointsAdded st =? 0)%Z with false by lia.
  rewrite andb_false_r.
  apply IH; simpl; auto.
  intros j Hj. apply Hc. lia.
Qed.



(** *** Several tasks in a scene without BSSRDF *)

Variable traces : Batch -> Prop.

(** No surface has a BSSRDF: [GetBSSRDF] is null at every hit, and no
    round records a candidate. *)
Definition no_BSSRDF : Prop := forall b, traces b -> candidates b = [].

(** The state of a task, given the paths traced so far. *)
Definition phase_ok (total : Z) (ph : Phase (S:=S)) : Prop :=
  match ph with
  | Tracing => True
  | Upgrading b _ => candidates b = []
  | Returned out => out = ReturnNoBSSRDF /\ (total > 50000)%Z
  end.

Definition tasks_ok (t : Tasks) : Prop :=
  repeatedFails (shared t) = 0%Z /\
  numPointsAdded (shared t) = 0%Z /\
  irradiancePoints (shared t) = [] /\
  (0 <= totalPathsTraced (shared t))%Z /\
  Forall (phase_ok (totalPathsTraced (shared t))) (phases t).

(** The actions that a task has ahead of it, and the rounds that can
    still end without a return. *)
Definition pending (ph : Phase (S:=S)) : nat :=
  match ph with Tracing => 2 | Upgrading _ _ => 1 | Returned _ => 0 end.

Definition rounds_left (total : Z) : nat :=
  if (total <=? 10000)%Z then 2 else if (total <=? 30000)%Z then 1 else 0.

Definition actions_left (t : Tasks) : nat :=
  (list_sum (map pending (phases t))
   + 2 * rounds_left (totalPathsTraced (shared t)))%nat.

Lemma Forall_upd {A : Type} (P : A -> Prop) (l : list A) i x :
  Forall P l -> P x -> Forall P (upd i x l).
Proof.
  intros Hl Hx. revert i.
  induction Hl as [|y l Hy Hl IH]; intros [|i]; simpl; constructor; auto.
Qed.

Lemma pending_upd (l : list (Phase (S:=S))) : forall w ph ph',
  nth_error l w = Some ph ->
  (list_sum (map pending (upd w ph' l)) + pending ph
   = list_sum (map pending l) + pending ph')%nat.
Proof.
  induction l as [|x l IH]; intros [|w] ph ph'; simpl; try discriminate.
  - intros H; injection H as ->. lia.
  - intros H. specialize (IH w ph ph' H). lia.
Qed.

Lemma phase_ok_mono total total' ph :
  (total <= total')%Z -> phase_ok total ph -> phase_ok total' ph.
Proof.
  destruct ph; simpl; auto. intros H [H1 H2]. split; [exact H1 | lia].
Qed.

Lemma step_without_BSSRDF (t t' : Tasks) :
  (0 < maxFails)%Z -> no_BSSRDF ->
  step maxFails msd traces t t' ->
  tasks_ok t ->
  tasks_ok t' /\ (Datatypes.S (actions_left t') = actions_left t)%nat.
Proof.
  intros Hpos Hno Hstep (Hrf & Hnp & Hip & Htot & Hph).
  destruct Hstep as [t w b Hw Hb | t w b flags Hw].
  - split.
    + repeat split; auto. cbn [shared phases].
      apply Forall_upd; [exact Hph|]. simpl. now apply Hno.
    + unfold actions_left; cbn [shared phases].
      pose proof (pending_upd (phases t) w
                    (Upgrading b (read_pass msd (pointOctree (shared t))
                                    (candidates b))) Hw) as Hwt.
      simpl in Hwt. lia.
  - assert (Hb : candidates b = []).
    { rewrite Forall_forall in Hph.
      apply (Hph (Upgrading b flags)). eapply nth_error_In; exact Hw. }
    rewrite write_section_no_candidates by (auto; lia).
    cbn [fst snd]. rewrite Hnp. cbn [Z.eqb]. rewrite andb_true_r.
    unfold pathsTraced.
    destruct (totalPathsTraced (shared t) + 20000 >? 50000)%Z eqn:Hgt.
    + split.
      * repeat split; auto; cbn [shared phases totalPathsTraced]; [lia|].
        apply Forall_upd.
        -- eapply Forall_impl; [|exact Hph].
           intros ph. apply phase_ok_mono. lia.
        -- simpl. split; [reflexivity | lia].
      * unfold actions_left; cbn [shared phases totalPathsTraced].
        pose proof (pending_upd (phases t) w
                      (after_write ReturnNoBSSRDF) Hw) as Hwt.
        cbn [after_write pending] in Hwt |- *. unfold rounds_left.
        destruct (totalPathsTraced (shared t) + 20000 <=? 10000)%Z eqn:E1;
          destruct (totalPathsTraced (shared t) + 20000 <=? 30000)%Z eqn:E2;
          destruct (totalPathsTraced (shared t) <=? 10000)%Z eqn:E3;
          destruct (totalPathsTraced (shared t) <=? 30000)%Z eqn:E4; lia.
    + split.
      * repeat split; auto; cbn [shared phases totalPathsTraced]; [lia|].
        apply Forall_upd.
        -- eapply Forall_impl; [|exact Hph].
           intros ph. apply phase_ok_mono. lia.
        -- exact I.
      * unfold actions_left; cbn [shared phases totalPathsTraced].
        pose proof (pending_upd (phases t) w (after_write Continue) Hw) as Hwt.
        cbn [after_write pending] in Hwt |- *. unfold rounds_left.
        destruct (totalPathsTraced (shared t) + 20000 <=? 10000)%Z eqn:E1;
          destruct (totalPathsTraced (shared t) + 20000 <=? 30000)%Z eqn:E2;
          destruct (totalPathsTraced (shared t) <=? 10000)%Z eqn:E3;
          destruct (totalPathsTraced (shared t) <=? 30000)%Z eqn:E4; lia.
Qed.

Lemma pending_repeat_Tracing n :
  list_sum (map pending (repeat Tracing n)) = (2 * n)%nat.
Proof. induction n; simpl; lia. Qed.

(** In a scene without BSSRDF every execution of the tasks is short:
    after at most [2 * nTasks + 4] atomic actions nothing is left to do;
    no point is ever deposited, and a task that has returned took the
    return that follows the warning, with more than 50000 paths traced. *)
Lemma tasks_without_BSSRDF (nTasks : nat) (octBounds : BBox) (n : nat) (t : Tasks) :
  (0 < maxFails)%Z -> no_BSSRDF ->
  steps maxFails msd traces n (Tasks_init nTasks octBounds []) t ->
  tasks_ok t /\ (n + actions_left t = 2 * nTasks + 4)%nat.
Proof.
  intros Hpos Hno Hsteps.
  remember (Tasks_init nTasks octBounds []) as t0 eqn:Ht0.
  induction Hsteps as [t|n t t' t'' _ IH Hstep].
  - subst t. split.
    + repeat split; [simpl; lia|]. simpl. apply Forall_forall.
      intros ph Hin. apply repeat_spec in Hin. subst ph. exact I.
    + unfold actions_left. simpl. rewrite pending_repeat_Tracing. lia.
  - destruct (IH Ht0) as [Hok Hn].
    destruct (step_without_BSSRDF Hpos Hno Hstep Hok) as [Hok' Hdec].
    split; [exact Hok'|lia].
Qed.

(** A task that has not returned can act. *)
Lemma task_can_act (t : Tasks) (w : nat) (ph : Phase (S:=S)) :
  (exists b, traces b) ->
  nth_error (phases t) w = Some ph ->
  (forall out, ph <> Returned out) ->
  exists t', step maxFails msd traces t t'.
Proof.
  intros [b Hb] Hw Hph. destruct ph as [|b' flags|out].
  - eexists. eapply step_read; eauto.
  - eexists. eapply step_write; eauto.
  - now destruct (Hph out).
Qed.


End PointTasks.

(** ** The tasks on concrete inputs *)


Lemma lonely_task_loops (fuel : nat) :
  DipoleSubsurface.Run fuel 2000 (F32.ratio 1 4) lonely_trace 0 shared0 = None.
Proof.
  destruct fuel as [|fuel]; [reflexivity|].
  cbn [DipoleSubsurface.Run].
  remember (DipoleSubsurface.write_section 2000 (F32.ratio 1 4) (lonely_trace 0)
              (DipoleSubsurface.read_pass (F32.ratio 1 4)
                 (DipoleSubsurface.pointOctree shared0)
                 (DipoleSubsurface.candidates (lonely_trace 0))) shared0)
    as r eqn:Hr.
  assert (Hout : snd r = DipoleSubsurface.Continue)
    by (subst r; vm_compute; reflexivity).
  assert (Hrf : DipoleSubsurface.repeatedFails (fst r) = 0%Z)
    by (subst r; vm_compute; reflexivity).
  assert (Hnp : DipoleSubsurface.numPointsAdded (fst r) = 1%Z)
    by (subst r; vm_compute; reflexivity).
  clear Hr. destruct r as [st1 out]. cbn [fst snd] in *. subst out.
  apply Run_loops_without_candidates.
  - intros [|j] Hj; [lia | reflexivity].
  - lia.
  - lia.
Qed.


(** ** Dipole subsurface: Preprocess *)

Section DipolePreprocess.

Import DipoleSubsurface.
Context {S : Type} {SO : SpectrumOps S}.
Context {Light : Type}.

(** C10: with no light in the scene, Preprocess returns at once.
    Whatever the point tasks would have deposited (whether or not the
    scene has BSSRDF materials) and whatever the lights would have
    contributed, the integrator is left as it was: its list of
    irradiance points and its (null) octree are untouched, so a newly
    created integrator keeps an empty list and no hierarchy. *)
Theorem C10_Preprocess_returns_without_lights
    (fuel : nat) (lightE : Light -> IrradiancePoint (S:=S) -> S)
    (deposited : list (IrradiancePoint (S:=S)))
    (dsi : DipoleSubsurfaceIntegrator (S:=S)) :
  Preprocess fuel (@nil Light) lightE deposited dsi = Some dsi /\
  (forall mdepth merror mindist,
     let new := {| maxSpecularDepth := mdepth; maxError := merror;
                   minSampleDist := mindist; octree := None;
                   octreeBounds := BBox0; dsi_irradiancePoints := [] |} in
     exists dsi',
       Preprocess fuel (@nil Light) lightE deposited new = Some dsi' /\
       dsi_irradiancePoints dsi' = [] /\ octree dsi' = None).
Proof.
  split; [reflexivity|].
  intros mdepth merror mindist new. exists new. repeat split.
Qed.

End DipolePreprocess.

(** ** The empty hierarchy *)

Lemma mul_nan_r (x : float) : (x * F32.nan)%f32 = F32.nan.
Proof. destruct x as [[|]|[|]| |[|] m e]; reflexivity. Qed.


(** ** Irradiance cache: interpolation *)

Section Interpolation.

Import IrradianceCache.
Context {Oct : Type -> Type} {OO : OctreeOps Oct}.

Local Abbreviation Sample := (IrradianceSample (S:=RGB)).

(** The interpolation rule in the words of the specification, for the
    query [(p, n)], the threshold angle cosine [c] and a record [s]. *)
Definition e_p (p : Point) (s : Sample) : float :=
  (Distance p (sp s) / smaxDist s)%f32.

Definition e_n (n : Normal) (c : float) (s : Sample) : float :=
  F32.sqrtf ((F32.one - Dot n (sn s)) / (F32.one - c))%f32.

Definition error (p : Point) (n : Normal) (c : float) (s : Sample) : float :=
  F32.max (e_p p s) (e_n n c s).

Definition contributes (p : Point) (n : Normal) (c : float) (s : Sample) : bool :=
  (error p n c s <? F32.one)%f32.

Definition weight (p : Point) (n : Normal) (c : float) (s : Sample) : float :=
  (F32.one - error p n c s)%f32.

(** The sums over the contributing records, in the order of the visit. *)
Definition sum_w (p : Point) (n : Normal) (c : float) (records : list Sample)
    : float :=
  fold_left (fun a s => (a + weight p n c s)%f32)
    (filter (contributes p n c) records) F32.zero.

Definition sum_wE (p : Point) (n : Normal) (c : float) (records : list Sample)
    : RGB :=
  fold_left (fun a s => sp_add a (sp_scale (sE s) (weight p n c s)))
    (filter (contributes p n c) records) (sp_const F32.zero).

Definition sum_wdir (p : Point) (n : Normal) (c : float)
    (records : list Sample) : Vector :=
  fold_left
    (fun a s => Vector_add a (Vector_scale (weight p n c s) (swAvg s)))
    (filter (contributes p n c) records) Vector0.

Lemma visit_IrradProcess (p : Point) (n : Normal) (mw c : float)
    (records : list Sample) : forall nf w E dir,
  visit IrradProcess_call records
    (mkIrradProcess p n mw c nf w E dir)
  = mkIrradProcess p n mw c
      (nf + Z.of_nat (length (filter (contributes p n c) records)))
      (fold_left (fun a s => (a + weight p n c s)%f32)
         (filter (contributes p n c) records) w)
      (fold_left (fun a s => sp_add a (sp_scale (sE s) (weight p n c s)))
         (filter (contributes p n c) records) E)
      (fold_left
         (fun a s => Vector_add a (Vector_scale (weight p n c s) (swAvg s)))
         (filter (contributes p n c) records) dir).
Proof.
  induction records as [|s records IH]; intros nf w E dir.
  - simpl. now rewrite Z.add_0_r.
  - cbn [visit filter]. unfold IrradProcess_call at 1.
    change (err (mkIrradProcess p n mw c nf w E dir) s) with (error p n c s).
    fold (contributes p n c s).
    destruct (contributes p n c s).
    + cbn [qp qn qminWeight qcosMaxSampleAngleDifference nFound sumWt qE qwAvg].
      rewrite IH. cbn [length fold_left]. fold (weight p n c s).
      f_equal. lia.
    + apply IH.
Qed.

Lemma interpolateE_sums (ic : IrradianceCacheIntegrator (S:=RGB) (Oct:=Oct))
    (oct : Oct Sample) (p : Point) (n : Normal) :
  octree ic = Some oct ->
  let c := cosMaxSampleAngleDifference ic in
  let records := octree_visit oct p in
  interpolateE ic p n
  = if F32.geb (sum_w p n c records) (minWeight ic)
    then Some (sp_div (sum_wE p n c records) (sum_w p n c records),
               sum_wdir p n c records)
    else None.
Proof.
  intros Hoct c records. unfold interpolateE. rewrite Hoct.
  unfold Lookup, IrradProcess_new. rewrite visit_IrradProcess.
  reflexivity.
Qed.

(** *** A record at the query point, with the query's unit normal *)

Definition finite_point (p : Point) : Prop :=
  F32.is_finite (px p) = true /\ F32.is_finite (py p) = true /\
  F32.is_finite (pz p) = true.

(** A coefficient that is a valid binary32 datum other than minus zero. *)
Definition plain (x : float) : Prop :=
  F32.valid x = true /\ x <> S754_zero true.

Definition plain_spectrum (E : RGB) : Prop :=
  plain (cr E) /\ plain (cg E) /\ plain (cb E).

Lemma Distance_self (p : Point) : finite_point p -> Distance p p = F32.zero.
Proof.
  intros (Hx & Hy & Hz). unfold Distance, Length, LengthSquared, Point_sub.
  cbn [vx vy vz]. fold F32.sub.
  change (SFsub F32.prec F32.emax) with F32.sub.
  rewrite !sub_self by assumption. reflexivity.
Qed.

Lemma zero_div_positive (d : float) :
  (F32.zero <? d)%f32 = true -> (F32.zero / d)%f32 = F32.zero.
Proof.
  destruct d as [[|]|[|]| |[|] m e]; simpl; intros H; try discriminate;
    reflexivity.
Qed.

Lemma max_zero_sqrt_zero_div (v : float) :
  F32.max F32.zero (F32.sqrtf (F32.zero / v)%f32) = F32.zero.
Proof.
  destruct v as [[|]|[|]| |[|] m e]; reflexivity.
Qed.

Lemma add_zero_l (x : float) :
  x <> S754_zero true -> (F32.zero + x)%f32 = x.
Proof.
  destruct x as [[|]|[|]| |s m e]; intros H; try reflexivity.
  now destruct H.
Qed.

Lemma coefficient_kept (x : float) :
  plain x -> ((F32.zero + x * F32.one) / (F32.zero + F32.one))%f32 = x.
Proof.
  intros [Hv Hz].
  change (F32.zero + F32.one)%f32 with F32.one.
  fold F32.mul.
  rewrite mul_one_r, add_zero_l, div_one_r by assumption. reflexivity.
Qed.

Lemma error_at_record (p : Point) (n : Normal) (c : float) (s : Sample) :
  sp s = p -> sn s = n -> finite_point p ->
  Dot n n = F32.one -> (F32.zero <? smaxDist s)%f32 = true ->
  error p n c s = F32.zero.
Proof.
  intros Hp Hn Hfin Hunit Hmax.
  unfold error, e_p, e_n. rewrite Hp, Hn, Distance_self, Hunit by assumption.
  rewrite zero_div_positive by assumption.
  change (F32.one - F32.one)%f32 with F32.zero.
  apply max_zero_sqrt_zero_div.
Qed.



End Interpolation.

(** ** The cache with one record *)


(** ** Distribution1D: the uniform distribution *)

Section Uniform.

Local Open Scope Z_scope.
Unset Implicit Arguments.

(** Comparison of positive floats, on mantissas and exponents. *)
Lemma ltb_positive m1 e1 m2 e2 :
  F32.ltb (S754_finite false m1 e1) (S754_finite false m2 e2) = true
  <-> e1 < e2 \/ (e1 = e2 /\ Z.pos m1 < Z.pos m2).
Proof.
  unfold F32.ltb, SFltb, SFcompare.
  destruct (Z.compare_spec e1 e2) as [He|He|He].
  - change (Pos.compare_cont Eq m1 m2) with (Pos.compare m1 m2).
    destruct (Pos.compare_spec m1 m2) as [Hm|Hm|Hm]; split; intros H;
      try discriminate; try reflexivity; try lia.
  - split; intros; [lia | reflexivity].
  - split; intros H; [discriminate | lia].
Qed.

Lemma leb_positive m1 e1 m2 e2 :
  F32.leb (S754_finite false m1 e1) (S754_finite false m2 e2) = true
  <-> e1 < e2 \/ (e1 = e2 /\ Z.pos m1 <= Z.pos m2).
Proof.
  unfold F32.leb, SFleb, SFcompare.
  destruct (Z.compare_spec e1 e2) as [He|He|He].
  - change (Pos.compare_cont Eq m1 m2) with (Pos.compare m1 m2).
    destruct (Pos.compare_spec m1 m2) as [Hm|Hm|Hm]; split; intros H;
      try discriminate; try reflexivity; try lia.
  - split; intros; [lia | reflexivity].
  - split; intros H; [discriminate | lia].
Qed.

(** A float with exponent above the least one has a full mantissa. *)
Lemma bounded_normal m e :
  bounded F32.prec F32.emax m e = true -> -149 < e ->
  2 ^ 23 <= Z.pos m < 2 ^ 24.
Proof.
  intros Hb He. destruct (bounded_canonical _ _ Hb) as [Hc _].
  assert (Hd : Z.pos (digits2_pos m) = 24)
    by (unfold fexp, emin, F32.prec, F32.emax in Hc; lia).
  pose proof (digits_bounds m) as H. rewrite Hd in H. exact H.
Qed.

Lemma bounded_mantissa m e :
  bounded F32.prec F32.emax m e = true -> Z.pos (digits2_pos m) <= 24.
Proof.
  intros Hb. destruct (bounded_canonical _ _ Hb) as [Hc _].
  unfold fexp, emin, F32.prec, F32.emax in Hc. lia.
Qed.

Lemma digits_le_24 V : Z.pos V < 2 ^ 24 -> Z.pos (digits2_pos V) <= 24.
Proof.
  intros H. pose proof (digits_bounds V) as [Hl _].
  destruct (Z.le_gt_cases (Z.pos (digits2_pos V)) 24) as [|Hgt]; [assumption|].
  assert (2 ^ 24 <= 2 ^ (Z.pos (digits2_pos V) - 1))
    by (apply Z.pow_le_mono_r; lia).
  lia.
Qed.

Lemma bounded_full m e :
  2 ^ 23 <= Z.pos m < 2 ^ 24 -> -149 <= e <= 104 ->
  bounded F32.prec F32.emax m e = true.
Proof.
  intros Hm He.
  assert (Hd : Z.pos (digits2_pos m) = 24).
  { pose proof (digits_bounds m) as [Hl Hu].
    pose proof (digits_le_24 m ltac:(lia)).
    destruct (Z.eq_dec (Z.pos (digits2_pos m)) 24) as [|Hne]; [assumption|].
    assert (2 ^ Z.pos (digits2_pos m) <= 2 ^ 23)
      by (apply Z.pow_le_mono_r; lia).
    lia. }
  unfold bounded, canonical_mantissa. rewrite Hd.
  unfold fexp, emin, F32.prec, F32.emax.
  apply andb_true_iff. split; [apply Z.eqb_eq | apply Z.leb_le]; lia.
Qed.

(** The constants of the uniform distribution over four bins. *)
Definition quarter : float := S754_finite false 8388608 (-25).
Definition four : float := S754_finite false 8388608 (-21).

Lemma pow2_shift2 k : 0 <= k -> 2 ^ (k + 2) = 4 * 2 ^ k.
Proof.
  intros H. rewrite (pow2_split k 2) by lia. change (2 ^ 2) with 4. lia.
Qed.

(** The first segment: ((0 + (u - 0) / .25) / 4) is u. *)
Lemma segment_0 m e :
  bounded F32.prec F32.emax m e = true -> e <= 102 ->
  ((F32.zero + (S754_finite false m e - F32.zero) / quarter) / four)%f32
  = S754_finite false m e.
Proof.
  intros Hb He.
  pose proof (bounded_emin _ _ Hb) as Hmin.
  change (S754_finite false m e - F32.zero)%f32 with (S754_finite false m e).
  destruct (exists_canonical m (e + 2) (bounded_mantissa _ _ Hb) ltac:(lia))
    as (mt & et & Hbt & Hval).
  pose proof (bounded_emin _ _ Hbt) as Hmint.
  unfold F32.div at 2, quarter.
  rewrite (div_pow2_exact false m e false (-25) mt et Hbt ltac:(lia)).
  2:{ rewrite Hval. do 2 f_equal. lia. }
  cbn [xorb].
  change (F32.zero + S754_finite false mt et)%f32 with (S754_finite false mt et).
  unfold F32.div, four.
  rewrite (div_pow2_exact false mt et false (-21) m e Hb ltac:(lia)).
  - reflexivity.
  - replace (et - -21 - 23 + 200) with (et - 2 + 200) by lia.
    replace (et + 200) with ((et - 2 + 200) + 2) in Hval by lia.
    replace (e + 2 + 200) with ((e + 200) + 2) in Hval by lia.
    rewrite !pow2_shift2 in Hval by lia. lia.
Qed.

(** The other segments: with [ck = k/4] and [k] sharing a mantissa [mk],
    and [u] in the binade of [ck] above it, ((k + (u - ck) / .25) / 4)
    is u. *)
Lemma segment_k mk m e :
  bounded F32.prec F32.emax m e = true -> -149 < e <= 102 ->
  Z.pos mk < Z.pos m ->
  ((S754_finite false mk (e + 2)
    + (S754_finite false m e - S754_finite false mk e) / quarter) / four)%f32
  = S754_finite false m e.
Proof.
  intros Hb He Hlt.
  pose proof (bounded_normal _ _ Hb ltac:(lia)) as Hm.
  assert (HV : Z.pos (m - mk) = Z.pos m - Z.pos mk)
    by (apply Pos2Z.inj_sub; lia).
  set (V := (m - mk)%positive) in *.
  assert (HdV : Z.pos (digits2_pos V) <= 24) by (apply digits_le_24; lia).
  destruct (exists_canonical V e HdV ltac:(lia)) as (m1 & e1 & Hb1 & Hv1).
  destruct (exists_canonical V (e + 2) HdV ltac:(lia)) as (m2 & e2 & Hb2 & Hv2).
  pose proof (bounded_emin _ _ Hb1) as Hmin1.
  pose proof (bounded_emin _ _ Hb2) as Hmin2.
  replace (e + 2 + 200) with ((e + 200) + 2) in Hv2 by lia.
  rewrite pow2_shift2 in Hv2 by lia.
  unfold F32.sub.
  rewrite (sub_exact false m e false mk e false m1 e1 Hb1 ltac:(lia) ltac:(lia)).
  2:{ unfold scaled; cbn [cond_Zopp]. rewrite Hv1, HV. ring. }
  unfold F32.div at 2, quarter.
  rewrite (div_pow2_exact false m1 e1 false (-25) m2 e2 Hb2 ltac:(lia)).
  2:{ replace (e1 - -25 - 23 + 200) with ((e1 + 200) + 2) by lia.
      rewrite pow2_shift2 by lia. rewrite Hv2. lia. }
  cbn [xorb]. unfold F32.add.
  assert (Hb3 : bounded F32.prec F32.emax m (e + 2) = true)
    by (apply bounded_full; lia).
  rewrite (add_exact false mk (e + 2) false m2 e2 false m (e + 2) Hb3
             ltac:(lia) ltac:(lia)).
  2:{ unfold scaled; cbn [cond_Zopp]. rewrite Hv2, HV.
      replace (e + 2 + 200) with ((e + 200) + 2) by lia.
      rewrite pow2_shift2 by lia. ring. }
  unfold F32.div, four.
  rewrite (div_pow2_exact false m (e + 2) false (-21) m e Hb ltac:(lia)).
  - reflexivity.
  - do 2 f_equal. lia.
Qed.


Definition half : float := S754_finite false 8388608 (-24).
Definition three_quarters : float := S754_finite false 12582912 (-24).

Lemma uniform4_value :
  uniform4
  = {| func := [F32.one; F32.one; F32.one; F32.one];
       cdf := [F32.zero; quarter; half; three_quarters; F32.one];
       funcInt := F32.one;
       count := 4 |}.
Proof. vm_compute. reflexivity. Qed.

(** The halving search over five entries. *)
Lemma lower_bound_5 c0 c1 c2 c3 c4 u :
  lower_bound [c0; c1; c2; c3; c4] 5 u
  = if F32.ltb c2 u
    then (if F32.ltb c4 u then 5 else if F32.ltb c3 u then 4 else 3)%nat
    else (if F32.ltb c1 u then 2 else if F32.ltb c0 u then 1 else 0)%nat.
Proof. reflexivity. Qed.

Lemma find_offset_uniform4 u :
  find_offset uniform4 u
  = Z.max 0
      (Z.of_nat
         (if F32.ltb half u
          then (if F32.ltb F32.one u then 5
                else if F32.ltb three_quarters u then 4 else 3)%nat
          else (if F32.ltb quarter u then 2
                else if F32.ltb F32.zero u then 1 else 0)%nat) - 1).
Proof.
  rewrite uniform4_value. unfold find_offset. cbn [cdf count].
  change (Z.to_nat (4 + 1)) with 5%nat. now rewrite lower_bound_5.
Qed.

(** [SampleContinuous] once the offset and the three reads are known. *)
Lemma SampleContinuous_at (d : Distribution1D) (u : float) (i : Z)
    (c0 c1 fo : float) :
  find_offset d u = i ->
  read (cdf d) i = Some c0 -> read (cdf d) (i + 1) = Some c1 ->
  read (func d) i = Some fo ->
  SampleContinuous d u
  = Some (((F32.of_int i + (u - c0) / (c1 - c0)) / F32.of_int (count d))%f32,
          (fo / funcInt d)%f32).
Proof.
  intros Hi H0 H1 Hf. unfold SampleContinuous.
  rewrite Hi, H0, H1, Hf. reflexivity.
Qed.

(** What C6 says of one value [u]: the sample follows the stated rule at
    the offset [i] that the search finds, the pdf written is 1, and the
    returned [x] is [u] (as a float; identical but for the sign of a
    zero). *)
Definition uniform_sample_ok (u : float) : Prop :=
  exists (i : Z) (c0 c1 fi x : float),
    find_offset uniform4 u = i /\
    read (cdf uniform4) i = Some c0 /\
    read (cdf uniform4) (i + 1) = Some c1 /\
    read (func uniform4) i = Some fi /\
    SampleContinuous uniform4 u = Some (x, F32.one) /\
    x = ((F32.of_int i + (u - c0) / (c1 - c0))
         / F32.of_int (count uniform4))%f32 /\
    F32.one = (fi / funcInt uniform4)%f32 /\
    F32.eqb x u = true /\
    (u <> S754_zero true -> x = u).

(** A value for which the search finds offset [i] and the rule yields
    the value itself. *)
Lemma uniform_sample_at (u : float) (i : Z) (c0 c1 : float) :
  find_offset uniform4 u = i ->
  read (cdf uniform4) i = Some c0 ->
  read (cdf uniform4) (i + 1) = Some c1 ->
  read (func uniform4) i = Some F32.one ->
  ((F32.of_int i + (u - c0) / (c1 - c0)) / four)%f32 = u ->
  F32.eqb u u = true ->
  uniform_sample_ok u.
Proof.
  intros Hi H0 H1 Hf Hx Heq.
  exists i, c0, c1, F32.one, u.
  split; [exact Hi|]. split; [exact H0|]. split; [exact H1|].
  split; [exact Hf|].
  split.
  { rewrite (SampleContinuous_at uniform4 u i c0 c1 F32.one Hi H0 H1 Hf).
    rewrite uniform4_value. cbn [count funcInt].
    change (F32.of_int 4) with four. rewrite Hx. reflexivity. }
  split.
  { rewrite uniform4_value. cbn [count].
    change (F32.of_int 4) with four. now rewrite Hx. }
  split; [reflexivity|]. split; [exact Heq|]. intros _. reflexivity.
Qed.

Lemma eqb_positive_refl m e :
  F32.eqb (S754_finite false m e) (S754_finite false m e) = true.
Proof.
  unfold F32.eqb, SFeqb, SFcompare.
  rewrite Z.compare_refl.
  change (Pos.compare_cont Eq m m) with (Pos.compare m m).
  now rewrite Pos.compare_refl.
Qed.


(** Comparisons of a positive float with the constants, as facts on its
    mantissa and exponent. *)
Ltac compared H :=
  unfold half, three_quarters, quarter in H;
  change F32.one with (S754_finite false 8388608 (-23)) in H;
  first [ apply ltb_positive in H
        | apply leb_positive in H
        | apply not_true_iff_false in H; rewrite ltb_positive in H ].

(** C6: for f = [1,1,1,1] and every float u with 0 <= u <= 1,
    SampleContinuous(u, &pdf) follows the rule
    x = (i + (u - CDF[i]) / (CDF[i+1] - CDF[i])) / n with pdf = f[i] / funcInt
    at the offset i that its search finds, writes pdf = 1 and returns
    x = u exactly, in binary32 arithmetic (for u = -0 the result is +0,
    which is equal to it as a float). *)
Theorem C6_uniform_SampleContinuous_is_identity (u : float) :
  F32.valid u = true ->
  F32.leb F32.zero u = true -> F32.leb u F32.one = true ->
  uniform_sample_ok u.
Proof.
  intros Hv H0 H1.
  destruct u as [[|]|s| |[|] m e]; try discriminate.
  - exists 0, F32.zero, quarter, F32.one, F32.zero.
    repeat split; try (vm_compute; reflexivity).
    intros H. now destruct H.
  - apply uniform_sample_at with (i := 0) (c0 := F32.zero) (c1 := quarter);
      vm_compute; reflexivity.
  - destruct s; discriminate.
  - assert (Hb : bounded F32.prec F32.emax m e = true) by exact Hv.
    pose proof (bounded_emin _ _ Hb) as Hmin.
    pose proof (find_offset_uniform4 (S754_finite false m e)) as Hoff.
    compared H1.
    destruct (F32.ltb F32.one (S754_finite false m e)) eqn:H4;
      [compared H4; lia|].
    change (F32.ltb F32.zero (S754_finite false m e)) with true in Hoff.
    destruct (F32.ltb half (S754_finite false m e)) eqn:H2;
      [destruct (F32.ltb three_quarters (S754_finite false m e)) eqn:H3
      |destruct (F32.ltb quarter (S754_finite false m e)) eqn:H3];
      compared H2; compared H3.
    + (* 3/4 < u <= 1 *)
      destruct (Z.eq_dec e (-23)) as [He|He].
      * subst e. pose proof (bounded_normal _ _ Hb ltac:(lia)) as Hm.
        assert (m = 8388608%positive) by lia. subst m.
        apply uniform_sample_at with (i := 3) (c0 := three_quarters)
                                     (c1 := F32.one);
          try exact Hoff; vm_compute; reflexivity.
      * assert (e = -24) by lia. subst e.
        apply uniform_sample_at with (i := 3) (c0 := three_quarters)
                                     (c1 := F32.one);
          [exact Hoff | vm_compute; reflexivity | vm_compute; reflexivity
          | vm_compute; reflexivity | | apply eqb_positive_refl].
        change (F32.of_int 3) with (S754_finite false 12582912 (-24 + 2)).
        change (F32.one - three_quarters)%f32 with quarter.
        apply (segment_k 12582912 m (-24) Hb); lia.
    + (* 1/2 < u <= 3/4 *)
      assert (e = -24) by lia. subst e.
      apply uniform_sample_at with (i := 2) (c0 := half)
                                   (c1 := three_quarters);
        [exact Hoff | vm_compute; reflexivity | vm_compute; reflexivity
        | vm_compute; reflexivity | | apply eqb_positive_refl].
      change (F32.of_int 2) with (S754_finite false 8388608 (-24 + 2)).
      change (three_quarters - half)%f32 with quarter.
      apply (segment_k 8388608 m (-24) Hb); lia.
    + (* 1/4 < u <= 1/2 *)
      destruct (Z.eq_dec e (-24)) as [He|He].
      * subst e. pose proof (bounded_normal _ _ Hb ltac:(lia)) as Hm.
        assert (m = 8388608%positive) by lia. subst m.
        apply uniform_sample_at with (i := 1) (c0 := quarter) (c1 := half);
          try exact Hoff; vm_compute; reflexivity.
      * assert (e = -25) by lia. subst e.
        apply uniform_sample_at with (i := 1) (c0 := quarter) (c1 := half);
          [exact Hoff | vm_compute; reflexivity | vm_compute; reflexivity
          | vm_compute; reflexivity | | apply eqb_positive_refl].
        change (F32.of_int 1) with (S754_finite false 8388608 (-25 + 2)).
        change (half - quarter)%f32 with quarter.
        apply (segment_k 8388608 m (-25) Hb); lia.
    + (* 0 < u <= 1/4 *)
      apply uniform_sample_at with (i := 0) (c0 := F32.zero) (c1 := quarter);
        [exact Hoff | vm_compute; reflexivity | vm_compute; reflexivity
        | vm_compute; reflexivity | | apply eqb_positive_refl].
      change (F32.of_int 0) with F32.zero.
      change (quarter - F32.zero)%f32 with quarter.
      apply (segment_0 m e Hb). lia.
Qed.


Set Implicit Arguments.

End Uniform.

(** The sample u = 0.3f lies in [0,1]; the code returns it unchanged with
    pdf = 1. *)
Lemma C6_uniform_SampleContinuous_is_identity_witness :
  F32.valid (F32.ratio 3 10) = true /\
  F32.leb F32.zero (F32.ratio 3 10) = true /\
  F32.leb (F32.ratio 3 10) F32.one = true /\
  uniform_sample_ok (F32.ratio 3 10).
Proof.
  split; [reflexivity|]. split; [reflexivity|]. split; [reflexivity|].
  apply C6_uniform_SampleContinuous_is_identity; reflexivity.
Defined.
